(** * dyslexic_reader.py: speech worker, event bridge and highlight polling

    A shallow embedding of [src/dyslexic_reader.py].  The module globals
    ([tts_queue], [gui_queue], [text_area], [latest_text_for_tts], the
    worker's engine) become the fields of one record [World]; every
    function of the script is a computation in a small state-and-exception
    monad over that record.  The two threads are put together as an
    interleaving step relation in [System].

    Three libraries the script calls are not part of the repository and are
    modelled from their documented behaviour:
    - [queue.Queue] (Python standard library): FIFO list plus the
      unfinished-task counter used by [task_done]/[join];
    - the Tk text widget: characters carrying tag sets, indices of the
      form ["1.0 + n chars"] clamped to the text, [tag_add] without effect
      on an empty range;
    - the pyttsx3 engine: [connect]/[disconnect]/[_notify] as in
      [pyttsx3/engine.py]; what the platform driver does during
      [runAndWait] (the word boundaries it reports, whether it raises) is
      a parameter [driver]. *)

From Stdlib Require Import ZArith NArith Lia.
From stdpp Require Import gmap strings list.

Open Scope Z_scope.

(** ** Python strings *)

Module Py.

(** A Python [str] is a sequence of code points. *)
Definition str := list N.

Definition of_string (s : string) : str :=
  map Ascii.N_of_ascii (String.list_ascii_of_string s).

(** [str.isspace] on one code point: the characters [str.strip] removes
    when called without argument. *)
Definition isspace (c : N) : bool :=
  ((9 <=? c) && (c <=? 13) || (28 <=? c) && (c <=? 32)
   || (c =? 133) || (c =? 160) || (c =? 5760)
   || (8192 <=? c) && (c <=? 8202)
   || (c =? 8232) || (c =? 8233) || (c =? 8239) || (c =? 8287)
   || (c =? 12288))%N.

Fixpoint lstrip (s : str) : str :=
  match s with
  | [] => []
  | c :: s' => if isspace c then lstrip s' else s
  end.

Definition rstrip (s : str) : str := rev (lstrip (rev s)).

Definition strip (s : str) : str := lstrip (rstrip s).

(** Truth value of a string: [not s] holds of the empty string only. *)
Definition truthy (s : str) : bool :=
  match s with [] => false | _ :: _ => true end.

(** [s[a:b]] for arbitrary integers: a negative bound counts from the end,
    then both bounds are clamped to [0 .. len(s)]. *)
Definition slice_bound (len i : Z) : Z :=
  if i <? 0 then Z.max 0 (i + len) else Z.min i len.

Definition slice (s : str) (a b : Z) : str :=
  let len := Z.of_nat (length s) in
  let lo := Z.to_nat (slice_bound len a) in
  let hi := Z.to_nat (slice_bound len b) in
  take (hi - lo) (drop lo s).

End Py.

(** ** Exceptions *)

Inductive exn : Type :=
| Empty          (* queue.Empty *)
| ValueError     (* task_done() called too many times; list.remove(x) *)
| TclError       (* raised by the text widget *)
| EngineError.   (* anything the speech driver raises *)

(** ** queue.Queue *)

Module Queue.

Record t (A : Type) : Type := mk {
  items : list A;               (* the deque, head first *)
  unfinished_tasks : nat        (* incremented by put, decremented by task_done *)
}.
Arguments mk {A} _ _.
Arguments items {A} _.
Arguments unfinished_tasks {A} _.

Definition new {A} : t A := mk [] 0%nat.

Definition put {A} (x : A) (q : t A) : t A :=
  mk (items q ++ [x]) (S (unfinished_tasks q)).

(** [get_nowait]: the head, or [queue.Empty]. A blocking [get] is the same
    function, with [inl Empty] read as: the caller stays blocked. *)
Definition get_nowait {A} (q : t A) : exn + (A * t A) :=
  match items q with
  | [] => inl Empty
  | x :: rest => inr (x, mk rest (unfinished_tasks q))
  end.

Definition task_done {A} (q : t A) : exn + t A :=
  match unfinished_tasks q with
  | O => inl ValueError
  | S n => inr (mk (items q) n)
  end.

(** [join] returns only once every item that was put has been marked done. *)
Definition join_ready {A} (q : t A) : bool :=
  Nat.eqb (unfinished_tasks q) 0.

(** No more [task_done] calls than [get]s: every queued item is still
    counted as unfinished. *)
Definition wf {A} (q : t A) : Prop :=
  (length (items q) <= unfinished_tasks q)%nat.

End Queue.

(** ** The Tk text widget *)

Module Tk.

(** Each character of the widget carries the set of tags applied to it. *)
Record cell : Type := mk_cell { glyph : N; tags : gset string }.

Record Text : Type := mk_text {
  cells : list cell;                 (* all characters, the final newline included *)
  tag_background : gmap string string; (* tag_config(tag, background=...) *)
  view : option nat                  (* the index last passed to see() *)
}.

(** A widget showing [s]: Tk keeps a newline after the last character. *)
Definition of_str (s : Py.str) : Text :=
  mk_text (map (fun c => mk_cell c ∅) (s ++ [10%N])) ∅ None.

(** Index expressions, as far as the script builds them. *)
Inductive index : Type :=
| Idx_1_0                              (* "1.0" *)
| Idx_END                              (* tk.END *)
| Idx_plus_chars (i : index) (n : Z).  (* f"{i} + {n} chars" *)

(** An index denotes a position between 0 and the number of characters;
    moving past either end stops at that end. *)
Fixpoint resolve (len : nat) (i : index) : nat :=
  match i with
  | Idx_1_0 => 0%nat
  | Idx_END => len
  | Idx_plus_chars j n =>
      Z.to_nat (Z.max 0 (Z.min (Z.of_nat len) (Z.of_nat (resolve len j) + n)))
  end.

(** Apply [f] to the tag sets of the characters at positions [lo .. hi-1]. *)
Fixpoint retag (f : gset string -> gset string) (lo hi : nat)
    (cs : list cell) : list cell :=
  match cs with
  | [] => []
  | c :: cs' =>
      (match lo, hi with
       | O, S _ => mk_cell (glyph c) (f (tags c))
       | _, _ => c
       end) :: retag f (pred lo) (pred hi) cs'
  end.

Definition set_cells (w : Text) (cs : list cell) : Text :=
  mk_text cs (tag_background w) (view w).

Definition tag_remove (tag : string) (i1 i2 : index) (w : Text) : Text :=
  let n := length (cells w) in
  set_cells w (retag (fun ts => ts ∖ {[tag]}) (resolve n i1) (resolve n i2) (cells w)).

(** No effect when the range holds no character (index2 <= index1). *)
Definition tag_add (tag : string) (i1 i2 : index) (w : Text) : Text :=
  let n := length (cells w) in
  set_cells w (retag (fun ts => {[tag]} ∪ ts) (resolve n i1) (resolve n i2) (cells w)).

Definition tag_config (tag background : string) (w : Text) : Text :=
  mk_text (cells w) (<[tag := background]> (tag_background w)) (view w).

Definition see (i : index) (w : Text) : Text :=
  mk_text (cells w) (tag_background w) (Some (resolve (length (cells w)) i)).

(** [get("1.0", END)]: the whole content. *)
Definition get_all (w : Text) : Py.str := map glyph (cells w).

Definition has_tag (tag : string) (c : cell) : bool :=
  bool_decide (tag ∈ tags c).

(** Maximal runs of [true] in a list of flags, as pairs (start, end) of
    positions, end excluded; [i] is the position of the head and [open]
    the start of the run being scanned. *)
Fixpoint runs_from (i : nat) (open : option nat) (bs : list bool)
    : list (nat * nat) :=
  match bs, open with
  | [], None => []
  | [], Some s => [(s, i)]
  | true :: bs', None => runs_from (S i) (Some i) bs'
  | true :: bs', Some s => runs_from (S i) (Some s) bs'
  | false :: bs', None => runs_from (S i) None bs'
  | false :: bs', Some s => (s, i) :: runs_from (S i) None bs'
  end.

(** [tag_ranges(tag)]: the spans of the text that carry [tag]. *)
Definition tag_ranges (tag : string) (w : Text) : list (nat * nat) :=
  runs_from 0 None (map (has_tag tag) (cells w)).

(** The characters of a span. *)
Definition span_text (w : Text) (r : nat * nat) : Py.str :=
  take (snd r - fst r) (drop (fst r) (get_all w)).

End Tk.

(** ** Data exchanged over the two queues *)

(** A task of [tts_queue] is a dict with the keys ['type'], ['text'] and
    ['sync'] (as [enqueue_speak] builds it); [None] is the shutdown
    sentinel, so the queue holds [option task]. *)
Record task : Type := mk_task {
  ttype : string;
  text : Py.str;
  sync : bool
}.

(** An event of [gui_queue]: the tuple [(etype, location, length)] that
    [on_word] builds, or a value that is false in a condition. *)
Inductive gui_event : Type :=
| EvFalsy
| Ev (etype : string) (location length : Z).

(** The closures the script hands to the engine. *)
Inductive callback : Type := on_word_cb.

Global Instance callback_eq_dec : EqDecision callback.
Proof. solve_decision. Defined.

(** ** The speech engine (pyttsx3.Engine) *)

Module Engine.

(** The value [connect] returns: [{'topic': topic, 'cb': cb}]. *)
Record token : Type := mk_token { topic : string; cb : callback }.

Record t : Type := mk {
  connects : gmap string (list callback);  (* self._connects *)
  utterances : list Py.str                 (* queued by say(), spoken by runAndWait() *)
}.

Definition init : t := mk ∅ [].

(** [arr = self._connects.setdefault(topic, []); arr.append(cb)] *)
Definition connect (tp : string) (c : callback) (e : t) : token * t :=
  let arr := default [] (connects e !! tp) in
  (mk_token tp c, mk (<[tp := arr ++ [c]]> (connects e)) (utterances e)).

(** [list.remove(x)]: drops the first occurrence, [ValueError] if absent. *)
Fixpoint list_remove (c : callback) (arr : list callback)
    : option (list callback) :=
  match arr with
  | [] => None
  | c' :: arr' =>
      if decide (c' = c) then Some arr'
      else option_map (cons c') (list_remove c arr')
  end.

(** [disconnect]: an unknown topic is ignored; the callback is removed from
    the topic's list, and the topic is dropped once its list is empty. *)
Definition disconnect (tok : token) (e : t) : exn + t :=
  match connects e !! topic tok with
  | None => inr e
  | Some arr =>
      match list_remove (cb tok) arr with
      | None => inl ValueError
      | Some [] => inr (mk (delete (topic tok) (connects e)) (utterances e))
      | Some arr' => inr (mk (<[topic tok := arr']> (connects e)) (utterances e))
      end
  end.

Definition say (s : Py.str) (e : t) : t :=
  mk (connects e) (utterances e ++ [s]).

(** The callbacks [_notify(topic, ...)] calls, in order. *)
Definition listeners (tp : string) (e : t) : list callback :=
  default [] (connects e !! tp).

(** What the platform driver does with one utterance: the word boundaries
    it reports (location, length), in order, and whether it then raises. *)
Record synthesis : Type := mk_synthesis {
  words : list (Z * Z);
  raises : bool
}.

End Engine.

(** ** The module globals *)

Record World : Type := mk_world {
  tts_queue : Queue.t (option task);   (* tasks sent to the TTS worker *)
  gui_queue : Queue.t gui_event;       (* events from the worker to the GUI *)
  engine_worker : Engine.t;            (* owned by the worker thread *)
  text_area : Tk.Text;
  latest_text_for_tts : option Py.str; (* unset until the first read *)
  after_calls : list nat;              (* delays of pending root.after(...) polls *)
  root_destroyed : bool
}.

Definition set_tts_queue (q : Queue.t (option task)) (w : World) : World :=
  mk_world q (gui_queue w) (engine_worker w) (text_area w)
           (latest_text_for_tts w) (after_calls w) (root_destroyed w).
Definition set_gui_queue (q : Queue.t gui_event) (w : World) : World :=
  mk_world (tts_queue w) q (engine_worker w) (text_area w)
           (latest_text_for_tts w) (after_calls w) (root_destroyed w).
Definition set_engine_worker (e : Engine.t) (w : World) : World :=
  mk_world (tts_queue w) (gui_queue w) e (text_area w)
           (latest_text_for_tts w) (after_calls w) (root_destroyed w).
Definition set_text_area (t : Tk.Text) (w : World) : World :=
  mk_world (tts_queue w) (gui_queue w) (engine_worker w) t
           (latest_text_for_tts w) (after_calls w) (root_destroyed w).
Definition set_latest_text_for_tts (s : option Py.str) (w : World) : World :=
  mk_world (tts_queue w) (gui_queue w) (engine_worker w) (text_area w)
           s (after_calls w) (root_destroyed w).
Definition set_after_calls (l : list nat) (w : World) : World :=
  mk_world (tts_queue w) (gui_queue w) (engine_worker w) (text_area w)
           (latest_text_for_tts w) l (root_destroyed w).
Definition set_root_destroyed (b : bool) (w : World) : World :=
  mk_world (tts_queue w) (gui_queue w) (engine_worker w) (text_area w)
           (latest_text_for_tts w) (after_calls w) b.

(** ** Computations: state and exceptions *)

(** A computation runs on the globals and ends with a value or with a
    raised exception; what it changed before raising stays changed. *)
Definition M (A : Type) : Type := World -> (exn + A) * World.

Global Instance M_ret : MRet M := fun A x w => (inr x, w).
Global Instance M_bind : MBind M := fun A B f m w =>
  match m w with
  | (inr x, w') => f x w'
  | (inl e, w') => (inl e, w')
  end.

Definition raise {A} (e : exn) : M A := fun w => (inl e, w).

(** [try: body  except Exception: handler] *)
Definition try_except {A} (body : M A) (handler : exn -> M A) : M A :=
  fun w =>
    match body w with
    | (inr x, w') => (inr x, w')
    | (inl e, w') => handler e w'
    end.

(** [try: body  except queue.Empty: handler]; any other exception passes. *)
Definition try_except_Empty {A} (body : M A) (handler : M A) : M A :=
  fun w =>
    match body w with
    | (inl Empty, w') => handler w'
    | r => r
    end.

Definition modify (f : World -> World) : M unit := fun w => (inr tt, f w).
Definition gets {A} (f : World -> A) : M A := fun w => (inr (f w), w).

(** Lift a fallible update of one global. *)
Definition lift_result {A B} (proj : World -> A) (r : A -> exn + B)
    (upd : B -> World -> World) : M unit :=
  fun w =>
    match r (proj w) with
    | inl e => (inl e, w)
    | inr b => (inr tt, upd b w)
    end.

Fixpoint for_each {A} (l : list A) (body : A -> M unit) : M unit :=
  match l with
  | [] => mret tt
  | x :: l' => body x ;; for_each l' body
  end.

(** ** The script *)

Definition HIGHLIGHT_TAG : string := "highlight".
Definition HIGHLIGHT_BG : string := "#FFFF99".

(** Where the worker thread stands.  [Idle]: blocked in [tts_queue.get()];
    [Speaking]: between dequeuing a speak task and its [task_done], with the
    token of the connected callback when the task asked for word events;
    [Terminated]: the loop was left through [break]; [Crashed]: an
    exception left [tts_worker], which ends the thread. *)
Inductive worker_pc : Type :=
| Idle
| Speaking (s : Py.str) (cid : option Engine.token)
| Terminated
| Crashed (e : exn).

(** Where the main thread stands: in [root.mainloop()], blocked in the
    [tts_queue.join()] of [on_closing], or past [root.destroy()]. *)
Inductive main_pc : Type :=
| MainLoop
| Joining
| Closed.

Section Script.

(** The platform driver behind [engine_worker]. *)
Variable driver : Py.str -> Engine.synthesis.

(** *** TTS worker *)

Definition gui_queue_put (ev : gui_event) : M unit :=
  modify (fun w => set_gui_queue (Queue.put ev (gui_queue w)) w).

(** [on_word(name, location, length)]: posts the event, touches no widget. *)
Definition on_word (name : option Py.str) (location length : Z) : M unit :=
  gui_queue_put (Ev "word" location length).

Definition call (c : callback) : option Py.str -> Z -> Z -> M unit :=
  match c with on_word_cb => on_word end.

(** [Engine._notify('started-word', ...)]: every connected callback is
    called; an exception of a callback is swallowed. *)
Definition notify_started_word (location length : Z) : M unit :=
  cbs ← gets (fun w => Engine.listeners "started-word" (engine_worker w));
  for_each cbs (fun c =>
    try_except (call c None location length) (fun _ => mret tt)).

Definition pop_utterance : M unit :=
  modify (fun w =>
    let e := engine_worker w in
    set_engine_worker (Engine.mk (Engine.connects e) (tail (Engine.utterances e))) w).

(** [runAndWait()]: speaks the queued utterances one after the other and
    returns when the last one is over; the driver reports each word as it
    starts. *)
Definition runAndWait : M unit :=
  us ← gets (fun w => Engine.utterances (engine_worker w));
  for_each us (fun s =>
    pop_utterance ;;
    for_each (Engine.words (driver s))
             (fun wd => notify_started_word (fst wd) (snd wd)) ;;
    if Engine.raises (driver s) then raise EngineError else mret tt).

Definition engine_connect (tp : string) (c : callback) : M Engine.token :=
  fun w =>
    let '(tok, e) := Engine.connect tp c (engine_worker w) in
    (inr tok, set_engine_worker e w).

Definition engine_disconnect (tok : Engine.token) : M unit :=
  lift_result engine_worker (Engine.disconnect tok) set_engine_worker.

Definition engine_say (s : Py.str) : M unit :=
  modify (fun w => set_engine_worker (Engine.say s (engine_worker w)) w).

Definition tts_task_done : M unit :=
  lift_result tts_queue Queue.task_done set_tts_queue.

(** [task = tts_queue.get()], for a queue that holds an item. *)
Definition tts_get : M (option task) :=
  fun w =>
    match Queue.get_nowait (tts_queue w) with
    | inl e => (inl e, w)
    | inr (x, q) => (inr x, set_tts_queue q w)
    end.

(** Lines 24-37: from the [get] to the point where speech starts. *)
Definition tts_worker_dequeue : M worker_pc :=
  task ← tts_get;
  match task with
  | None =>
      (* shutdown sentinel *)
      tts_task_done ;; mret Terminated
  | Some task =>
      if String.eqb (ttype task) "speak" then
        if sync task then
          (* connect callback *)
          cid ← engine_connect "started-word" on_word_cb;
          mret (Speaking (text task) (Some cid))
        else
          mret (Speaking (text task) None)
      else
        tts_task_done ;; mret Idle
  end.

(** Lines 38-44 (with callback) and 47-48 (without), then line 50. *)
Definition tts_worker_speak (s : Py.str) (cid : option Engine.token)
    : M worker_pc :=
  engine_say s ;;
  runAndWait ;;
  match cid with
  | Some cid =>
      (* disconnect callback to avoid accumulating callbacks *)
      try_except (engine_disconnect cid) (fun _ => mret tt)
  | None => mret tt
  end ;;
  tts_task_done ;;
  mret Idle.

(** One step of the worker thread.  No step when it is blocked on an empty
    queue or has ended. *)
Definition tts_worker_step (pc : worker_pc) (w : World)
    : option (worker_pc * World) :=
  let run (m : M worker_pc) :=
    match m w with
    | (inr pc', w') => Some (pc', w')
    | (inl e, w') => Some (Crashed e, w')
    end in
  match pc with
  | Idle =>
      match Queue.items (tts_queue w) with
      | [] => None
      | _ :: _ => run tts_worker_dequeue
      end
  | Speaking s cid => run (tts_worker_speak s cid)
  | Terminated | Crashed _ => None
  end.

(** The worker thread running alone for at most [fuel] steps. *)
Fixpoint tts_worker (fuel : nat) (pc : worker_pc) (w : World)
    : worker_pc * World :=
  match fuel with
  | O => (pc, w)
  | S fuel' =>
      match tts_worker_step pc w with
      | None => (pc, w)
      | Some (pc', w') => tts_worker fuel' pc' w'
      end
  end.

(** *** Main thread *)

(** [enqueue_speak(text, sync=False)] *)
Definition enqueue_speak (s : Py.str) (sy : bool) : M unit :=
  modify (fun w =>
    set_tts_queue (Queue.put (Some (mk_task "speak" s sy)) (tts_queue w)) w).

Definition start_reading : M unit :=
  content ← gets (fun w => Py.rstrip (Tk.get_all (text_area w)));
  if negb (Py.truthy (Py.strip content)) then mret tt
  else
    modify (set_latest_text_for_tts (Some content)) ;;
    enqueue_speak content true.

Definition on_text_area (f : Tk.Text -> Tk.Text) : M unit :=
  modify (fun w => set_text_area (f (text_area w)) w).

(** How the body of the [while] loop ends: at its last line, or through
    [continue]. *)
Inductive flow : Type := Fallthrough | Continue.

(** Lines 165-174, the body of the inner [try]. *)
Definition highlight_word (location length : Z) : M flow :=
  if location <? 0 then mret Continue
  else
    (* Remove old highlight, add new *)
    on_text_area (Tk.tag_remove HIGHLIGHT_TAG Tk.Idx_1_0 Tk.Idx_END) ;;
    let start := Tk.Idx_plus_chars Tk.Idx_1_0 location in
    let end_ := Tk.Idx_plus_chars start length in
    on_text_area (Tk.tag_add HIGHLIGHT_TAG start end_) ;;
    on_text_area (Tk.tag_config HIGHLIGHT_TAG HIGHLIGHT_BG) ;;
    (* Make sure highlighted word is visible *)
    on_text_area (Tk.see start) ;;
    mret Fallthrough.

Definition gui_task_done : M unit :=
  lift_result gui_queue Queue.task_done set_gui_queue.

(** Lines 157-179: what the loop does with one dequeued event. *)
Definition handle_gui_event (ev : gui_event) : M flow :=
  match ev with
  | EvFalsy => mret Continue
  | Ev etype location length =>
      fl ← (if String.eqb etype "word" then
              try_except (highlight_word location length)
                         (fun _ => mret Fallthrough)
            else mret Fallthrough);
      match fl with
      | Continue => mret Continue
      | Fallthrough => gui_task_done ;; mret Fallthrough   (* mark processed *)
      end
  end.

Definition gui_get_nowait : M gui_event :=
  fun w =>
    match Queue.get_nowait (gui_queue w) with
    | inl e => (inl e, w)
    | inr (x, q) => (inr x, set_gui_queue q w)
    end.

(** The [while True] loop of [process_gui_events]: it can only be left by
    an exception, which is what a result [Some (e, w)] reports; [None]
    means that [fuel] iterations were not enough. *)
Fixpoint poll_loop (fuel : nat) (w : World) : option (exn * World) :=
  match fuel with
  | O => None
  | S fuel' =>
      match gui_get_nowait w with
      | (inl e, w1) => Some (e, w1)
      | (inr ev, w1) =>
          match handle_gui_event ev w1 with
          | (inl e, w2) => Some (e, w2)
          | (inr _, w2) => poll_loop fuel' w2
          end
      end
  end.

(** [process_gui_events()]: drains [gui_queue], then schedules the next
    poll 30 ms later. *)
Definition process_gui_events (fuel : nat) (w : World)
    : option ((exn + unit) * World) :=
  match poll_loop fuel w with
  | None => None
  | Some (Empty, w') =>
      Some (inr tt, set_after_calls (after_calls w' ++ [30%nat]) w')
  | Some (e, w') => Some (inl e, w')
  end.

(** [on_closing()], cut at the blocking [join]. *)
Definition on_closing_put : M unit :=
  modify (fun w => set_tts_queue (Queue.put None (tts_queue w)) w).

Definition on_closing_destroy : M unit :=
  modify (set_root_destroyed true).

End Script.

(** ** The two threads together *)

Module System.

(** The globals together with the position of each thread. *)
Record t : Type := mk {
  globals : World;
  worker : worker_pc;
  main : main_pc
}.

(** The script once line 200 is reached: the worker thread has built its
    engine and waits for a task, the text widget is empty, and the first
    call of [process_gui_events] (line 186) has scheduled the next one. *)
Definition boot : t :=
  mk (mk_world Queue.new Queue.new Engine.init (Tk.of_str []) None [30%nat] false)
     Idle MainLoop.

(** What a step lets the queues observe. *)
Inductive label : Type :=
| Submit (ts : list (option task))   (* put on tts_queue, in this order *)
| Dequeue (x : option task)          (* returned by the worker's get *)
| Emit (evs : list gui_event)        (* put on gui_queue, in this order *)
| Handle (evs : list gui_event)      (* taken from gui_queue by one poll *)
| Tau.

Definition submitted (tr : list label) : list (option task) :=
  flat_map (fun l => match l with Submit ts => ts | _ => [] end) tr.
Definition dequeued (tr : list label) : list (option task) :=
  flat_map (fun l => match l with Dequeue x => [x] | _ => [] end) tr.
Definition emitted (tr : list label) : list gui_event :=
  flat_map (fun l => match l with Emit evs => evs | _ => [] end) tr.
Definition handled (tr : list label) : list gui_event :=
  flat_map (fun l => match l with Handle evs => evs | _ => [] end) tr.

(** The states of the worker as the specification names them, with one
    more for a thread ended by an exception. *)
Inductive phase : Type :=
| P_Idle
| P_Speaking_no_events
| P_Speaking_with_events
| P_Terminated
| P_Crashed.

Definition phase_of (pc : worker_pc) : phase :=
  match pc with
  | Idle => P_Idle
  | Speaking _ None => P_Speaking_no_events
  | Speaking _ (Some _) => P_Speaking_with_events
  | Terminated => P_Terminated
  | Crashed _ => P_Crashed
  end.

(** The transitions the specification lists:
    Idle -> Speaking(no-events) -> Idle,
    Idle -> Speaking(with-events) -> Idle, Idle -> Terminated. *)
Definition spec_transition (p q : phase) : bool :=
  match p, q with
  | P_Idle, P_Speaking_no_events
  | P_Speaking_no_events, P_Idle
  | P_Idle, P_Speaking_with_events
  | P_Speaking_with_events, P_Idle
  | P_Idle, P_Terminated => true
  | _, _ => false
  end.

Section WithDriver.
Variable driver : Py.str -> Engine.synthesis.

(** Interleaving semantics.  The worker runs until the process ends; the
    main thread runs the callbacks of the Tk main loop one at a time:
    the Read button, any other caller of [enqueue_speak], the timer set by
    [root.after], an edit of the text by the user, and the close request,
    which blocks in [join] until the queue reports every task done. *)
Inductive step : t -> label -> t -> Prop :=
| step_dequeue g g' pc' m x rest :
    m <> Closed ->
    Queue.items (tts_queue g) = x :: rest ->
    tts_worker_step driver Idle g = Some (pc', g') ->
    step (mk g Idle m) (Dequeue x) (mk g' pc' m)
| step_speak g g' s cid pc' m evs :
    m <> Closed ->
    tts_worker_step driver (Speaking s cid) g = Some (pc', g') ->
    Queue.items (gui_queue g') = Queue.items (gui_queue g) ++ evs ->
    step (mk g (Speaking s cid) m) (Emit evs) (mk g' pc' m)
| step_read g g' pc ts :
    start_reading g = (inr tt, g') ->
    Queue.items (tts_queue g') = Queue.items (tts_queue g) ++ ts ->
    step (mk g pc MainLoop) (Submit ts) (mk g' pc MainLoop)
| step_enqueue g g' pc s sy ts :
    enqueue_speak s sy g = (inr tt, g') ->
    Queue.items (tts_queue g') = Queue.items (tts_queue g) ++ ts ->
    step (mk g pc MainLoop) (Submit ts) (mk g' pc MainLoop)
| step_poll g g' pc d rest r evs :
    after_calls g = d :: rest ->
    process_gui_events (S (length (Queue.items (gui_queue g))))
                       (set_after_calls rest g) = Some (r, g') ->
    Queue.items (gui_queue g) = evs ++ Queue.items (gui_queue g') ->
    step (mk g pc MainLoop) (Handle evs) (mk g' pc MainLoop)
| step_edit g pc s :
    step (mk g pc MainLoop) Tau (mk (set_text_area (Tk.of_str s) g) pc MainLoop)
| step_close g g' pc :
    on_closing_put g = (inr tt, g') ->
    step (mk g pc MainLoop) (Submit [None]) (mk g' pc Joining)
| step_join g g' pc :
    Queue.join_ready (tts_queue g) = true ->
    on_closing_destroy g = (inr tt, g') ->
    step (mk g pc Joining) Tau (mk g' pc Closed).

(** Executions, with the labels of their steps. *)
Inductive exec : t -> list label -> t -> Prop :=
| exec_nil s : exec s [] s
| exec_snoc s tr s1 l s2 :
    exec s tr s1 -> step s1 l s2 -> exec s (tr ++ [l]) s2.

End WithDriver.

End System.

(** * Properties *)

(** ** Text widget: tags and spans *)

Module TkFacts.
Import Tk.

Lemma retag_length f lo hi cs : length (retag f lo hi cs) = length cs.
Proof.
  revert lo hi; induction cs as [|c cs IH]; intros lo hi; simpl; [done|].
  by rewrite IH.
Qed.

Lemma retag_glyph f lo hi cs : map glyph (retag f lo hi cs) = map glyph cs.
Proof.
  revert lo hi; induction cs as [|c cs IH]; intros lo hi; simpl; [done|].
  rewrite IH. by destruct lo, hi.
Qed.

(** An empty range touches nothing. *)
Lemma retag_empty f lo hi cs : (hi <= lo)%nat -> retag f lo hi cs = cs.
Proof.
  revert lo hi; induction cs as [|c cs IH]; intros lo hi Hle; simpl; [done|].
  rewrite IH by lia. destruct lo, hi; try done. lia.
Qed.

Lemma has_tag_remove t c :
  has_tag t (mk_cell (glyph c) (tags c ∖ {[t]})) = false.
Proof.
  unfold has_tag; simpl. apply bool_decide_eq_false.
  rewrite elem_of_difference, elem_of_singleton. tauto.
Qed.

Lemma has_tag_add t c :
  has_tag t (mk_cell (glyph c) ({[t]} ∪ tags c)) = true.
Proof.
  unfold has_tag; simpl. apply bool_decide_eq_true.
  rewrite elem_of_union, elem_of_singleton. tauto.
Qed.

(** Removing a tag from the whole text leaves no character carrying it. *)
Lemma flags_remove_all t hi cs :
  (length cs <= hi)%nat ->
  map (has_tag t) (retag (fun ts => ts ∖ {[t]}) 0 hi cs)
  = repeat false (length cs).
Proof.
  revert hi; induction cs as [|c cs IH]; intros hi Hle; simpl in *; [done|].
  destruct hi as [|hi]; [lia|]. simpl.
  rewrite has_tag_remove, IH by lia. done.
Qed.

(** Adding a tag to a text that does not carry it marks exactly the
    characters of the range, cut at the end of the text. *)
Lemma flags_add t lo hi cs :
  map (has_tag t) cs = repeat false (length cs) ->
  (lo < hi)%nat ->
  map (has_tag t) (retag (fun ts => {[t]} ∪ ts) lo hi cs)
  = repeat false (lo `min` length cs)
    ++ repeat true (hi `min` length cs - lo `min` length cs)
    ++ repeat false (length cs - hi `min` length cs).
Proof.
  revert lo hi; induction cs as [|c cs IH]; intros lo hi Hno Hlt.
  - simpl. by rewrite !Nat.min_0_r.
  - simpl in Hno. injection Hno as Hc Hcs.
    destruct hi as [|hi]; [lia|].
    destruct lo as [|lo]; cbn [retag map length pred].
    + rewrite has_tag_add.
      destruct (decide (hi = 0%nat)) as [->|Hhi].
      * rewrite retag_empty by lia. rewrite Hcs. simpl.
        by rewrite Nat.sub_0_r.
      * rewrite (IH 0%nat hi Hcs) by lia.
        rewrite !Nat.min_0_l. simpl.
        by rewrite Nat.sub_0_r.
    + rewrite Hc, (IH lo hi Hcs) by lia. simpl. done.
Qed.

Lemma runs_from_false i a l :
  runs_from i None (repeat false a ++ l) = runs_from (i + a) None l.
Proof.
  revert i; induction a as [|a IH]; intros i; simpl.
  - by rewrite Nat.add_0_r.
  - rewrite IH. f_equal. lia.
Qed.

Lemma runs_from_true i s b l :
  runs_from i (Some s) (repeat true b ++ l) = runs_from (i + b) (Some s) l.
Proof.
  revert i; induction b as [|b IH]; intros i; simpl.
  - by rewrite Nat.add_0_r.
  - rewrite IH. f_equal. lia.
Qed.

Lemma runs_from_all_false i c : runs_from i None (repeat false c) = [].
Proof. revert i; induction c as [|c IH]; intros i; simpl; auto. Qed.

Lemma runs_from_close i s c : runs_from i (Some s) (repeat false c) = [(s, i)].
Proof. destruct c; simpl; [done|]. by rewrite runs_from_all_false. Qed.

(** One block of flags is one span. *)
Lemma runs_from_block a b c :
  (0 < b)%nat ->
  runs_from 0 None (repeat false a ++ repeat true b ++ repeat false c)
  = [(a, (a + b)%nat)].
Proof.
  intros Hb. rewrite runs_from_false. destruct b as [|b]; [lia|].
  cbn [repeat app runs_from]. rewrite runs_from_true, runs_from_close.
  f_equal. f_equal; lia.
Qed.

(** The four widget calls of lines 168-174, in order. *)
Definition highlight (location length : Z) (ta : Text) : Text :=
  let start := Idx_plus_chars Idx_1_0 location in
  let end_ := Idx_plus_chars start length in
  see start
    (tag_config HIGHLIGHT_TAG HIGHLIGHT_BG
       (tag_add HIGHLIGHT_TAG start end_
          (tag_remove HIGHLIGHT_TAG Idx_1_0 Idx_END ta))).

(** The positions the two indices of [tag_add] denote in a text of [n]
    characters. *)
Definition span_lo (n : nat) (location : Z) : nat :=
  resolve n (Idx_plus_chars Idx_1_0 location).
Definition span_hi (n : nat) (location length : Z) : nat :=
  resolve n (Idx_plus_chars (Idx_plus_chars Idx_1_0 location) length).

Lemma tag_ranges_remove_all t ta :
  tag_ranges t (tag_remove t Idx_1_0 Idx_END ta) = [].
Proof.
  unfold tag_ranges, tag_remove; simpl.
  rewrite flags_remove_all by lia. apply runs_from_all_false.
Qed.

Lemma highlight_get_all (location len : Z) (ta : Text) :
  get_all (highlight location len ta) = get_all ta.
Proof. unfold highlight, get_all; simpl. by rewrite !retag_glyph. Qed.

Lemma highlight_length (location len : Z) (ta : Text) :
  length (cells (highlight location len ta)) = length (cells ta).
Proof. unfold highlight; simpl. by rewrite !retag_length. Qed.

Lemma highlight_view (location len : Z) (ta : Text) :
  view (highlight location len ta)
  = Some (span_lo (length (cells ta)) location).
Proof. unfold highlight, span_lo; simpl. by rewrite !retag_length. Qed.

(** After the four calls the tag covers the clamped range and nothing
    else, whatever was tagged before. *)
Lemma highlight_ranges (location len : Z) (ta : Text) :
  let n := length (cells ta) in
  tag_ranges HIGHLIGHT_TAG (highlight location len ta)
  = if (span_lo n location <? span_hi n location len)%nat
    then [(span_lo n location, span_hi n location len)] else [].
Proof.
  intros n. unfold tag_ranges, highlight, span_lo, span_hi.
  cbn [see tag_config tag_add tag_remove set_cells cells].
  rewrite retag_length. fold n.
  set (lo := resolve n (Idx_plus_chars Idx_1_0 location)).
  set (hi := resolve n (Idx_plus_chars (Idx_plus_chars Idx_1_0 location) len)).
  assert (Hlo : (lo <= n)%nat) by (subst lo; simpl; lia).
  assert (Hhi : (hi <= n)%nat) by (subst hi; simpl; lia).
  set (cs := retag _ (resolve n Idx_1_0) (resolve n Idx_END) (cells ta)).
  assert (Hcs : map (has_tag HIGHLIGHT_TAG) cs = repeat false (length cs)).
  { subst cs. rewrite retag_length. simpl. apply flags_remove_all. lia. }
  assert (Hn : length cs = n) by (subst cs; apply retag_length).
  destruct (Nat.ltb_spec lo hi) as [Hlt|Hge].
  - rewrite flags_add by done. rewrite Hn.
    rewrite !Nat.min_l by lia.
    rewrite runs_from_block by lia. f_equal. f_equal. lia.
  - rewrite retag_empty by lia. rewrite Hcs. apply runs_from_all_false.
Qed.

End TkFacts.

(** ** The polling loop *)

Module Polling.
Import TkFacts.

(** What one event does to the text widget. *)
Definition apply_event (ev : gui_event) (ta : Tk.Text) : Tk.Text :=
  match ev with
  | EvFalsy => ta
  | Ev etype location length =>
      if String.eqb etype "word" && negb (location <? 0)
      then highlight location length ta else ta
  end.

(** Whether the loop reaches [gui_queue.task_done()] for the event. *)
Definition marks_done (ev : gui_event) : nat :=
  match ev with
  | EvFalsy => 0
  | Ev etype location length =>
      if String.eqb etype "word" && (location <? 0) then 0 else 1
  end.

Definition apply_events (evs : list gui_event) (ta : Tk.Text) : Tk.Text :=
  fold_left (fun t ev => apply_event ev t) evs ta.

Definition total_done (evs : list gui_event) : nat :=
  fold_right (fun ev n => marks_done ev + n)%nat 0%nat evs.

Lemma total_done_le evs : (total_done evs <= length evs)%nat.
Proof.
  induction evs as [|ev evs IH]; simpl; [lia|].
  assert (marks_done ev <= 1)%nat; [|lia].
  destruct ev as [|et l n]; simpl; [lia|].
  destruct (String.eqb et "word" && (l <? 0)); lia.
Qed.

(** The state after one event: the widget changed by [apply_event], the
    counter lowered when the event was marked done, nothing else touched. *)
Definition after_event (ev : gui_event) (w : World) : World :=
  set_gui_queue
    (Queue.mk (Queue.items (gui_queue w))
              (Queue.unfinished_tasks (gui_queue w) - marks_done ev))
    (set_text_area (apply_event ev (text_area w)) w).

Lemma handle_gui_event_run ev w :
  (0 < Queue.unfinished_tasks (gui_queue w))%nat ->
  exists fl, handle_gui_event ev w = (inr fl, after_event ev w).
Proof.
  intros Hu. destruct w as [tq [gi gu] e ta lt ac rd]. simpl in Hu.
  destruct gu as [|gu]; [lia|].
  destruct ev as [|et l n].
  - exists Continue. reflexivity.
  - unfold handle_gui_event, after_event, apply_event, marks_done.
    destruct (String.eqb et "word"); simpl.
    + unfold mbind, M_bind, try_except, highlight_word.
      destruct (l <? 0); simpl.
      * exists Continue. reflexivity.
      * exists Fallthrough. unfold highlight. simpl.
        by rewrite Nat.sub_0_r.
    + exists Fallthrough.
      cbv [mbind M_bind mret M_ret gui_task_done lift_result]. simpl.
      by rewrite Nat.sub_0_r.
Qed.

(** With enough fuel the loop empties the queue, handling the events in
    queue order, and is left through [queue.Empty]. *)
Lemma poll_loop_drain evs : forall w fuel,
  Queue.items (gui_queue w) = evs ->
  (length evs < fuel)%nat ->
  (length evs <= Queue.unfinished_tasks (gui_queue w))%nat ->
  poll_loop fuel w
  = Some (Empty,
          set_gui_queue
            (Queue.mk [] (Queue.unfinished_tasks (gui_queue w) - total_done evs))
            (set_text_area (apply_events evs (text_area w)) w)).
Proof.
  induction evs as [|ev evs IH]; intros w fuel Hq Hfuel Hwf.
  - destruct fuel as [|fuel]; [simpl in Hfuel; lia|].
    destruct w as [tq [gi gu] e ta lt ac rd]. simpl in *. subst gi.
    unfold gui_get_nowait, Queue.get_nowait; simpl.
    by rewrite Nat.sub_0_r.
  - destruct fuel as [|fuel]; [simpl in Hfuel; lia|].
    destruct w as [tq [gi gu] e ta lt ac rd]. simpl in Hq, Hfuel, Hwf. subst gi.
    cbn [poll_loop]. unfold gui_get_nowait, Queue.get_nowait.
    cbn [gui_queue Queue.items Queue.unfinished_tasks].
    set (w1 := set_gui_queue _ _).
    destruct (handle_gui_event_run ev w1) as [fl Hrun]; [subst w1; simpl; lia|].
    rewrite Hrun.
    assert (Hm : (marks_done ev <= 1)%nat).
    { destruct ev as [|et l n]; simpl; [lia|].
      destruct (String.eqb et "word" && (l <? 0)); lia. }
    rewrite (IH (after_event ev w1) fuel);
      [|subst w1; reflexivity|lia|subst w1; simpl; lia].
    subst w1. unfold after_event, apply_events. simpl.
    replace (gu - (marks_done ev + total_done evs))%nat
      with (gu - marks_done ev - total_done evs)%nat by lia.
    reflexivity.
Qed.

(** [process_gui_events] returns, and returns without exception. *)
Lemma process_gui_events_run w fuel :
  (length (Queue.items (gui_queue w)) < fuel)%nat ->
  Queue.wf (gui_queue w) ->
  let evs := Queue.items (gui_queue w) in
  process_gui_events fuel w
  = Some (inr tt,
          set_after_calls (after_calls w ++ [30%nat])
            (set_gui_queue
               (Queue.mk [] (Queue.unfinished_tasks (gui_queue w) - total_done evs))
               (set_text_area (apply_events evs (text_area w)) w))).
Proof.
  intros Hfuel Hwf evs. unfold process_gui_events.
  rewrite (poll_loop_drain evs) by done.
  by destruct w.
Qed.

Lemma apply_events_app evs1 evs2 ta :
  apply_events (evs1 ++ evs2) ta = apply_events evs2 (apply_events evs1 ta).
Proof. apply fold_left_app. Qed.

Lemma apply_event_get_all ev ta :
  Tk.get_all (apply_event ev ta) = Tk.get_all ta.
Proof.
  destruct ev as [|et l n]; simpl; [done|].
  destruct (_ && _); [apply highlight_get_all|done].
Qed.

Lemma apply_events_get_all evs ta :
  Tk.get_all (apply_events evs ta) = Tk.get_all ta.
Proof.
  revert ta; induction evs as [|ev evs IH]; intros ta; simpl; [done|].
  unfold apply_events in IH. by rewrite IH, apply_event_get_all.
Qed.

Lemma get_all_length ta : length (Tk.get_all ta) = length (Tk.cells ta).
Proof. unfold Tk.get_all. by rewrite length_map. Qed.

End Polling.

(** ** Highlighting: what a word event does to the display *)

Module Highlight.
Import TkFacts Polling.

(** The globals once the script has started and the user has typed [s]:
    both queues empty, a fresh engine, first poll scheduled. *)
Definition world_showing (s : Py.str) : World :=
  mk_world Queue.new Queue.new Engine.init (Tk.of_str s) None [30%nat] false.

(** The same with events waiting in [gui_queue]. *)
Definition with_events (evs : list gui_event) (w : World) : World :=
  set_gui_queue (fold_left (fun q ev => Queue.put ev q) evs (gui_queue w)) w.

Lemma span_lo_in_bounds n location :
  0 <= location <= Z.of_nat n -> span_lo n location = Z.to_nat location.
Proof. intros H. unfold span_lo; simpl. lia. Qed.

Lemma span_hi_in_bounds n location len :
  0 <= location -> 0 <= len -> location + len <= Z.of_nat n ->
  span_hi n location len = Z.to_nat (location + len).
Proof. intros H1 H2 H3. unfold span_hi; simpl. lia. Qed.

(** An event with a negative location changes nothing on the display. *)
Lemma negative_location_ignored etype location len ta :
  location < 0 -> apply_event (Ev etype location len) ta = ta.
Proof.
  intros H. simpl. destruct (Z.ltb_spec location 0); [|lia].
  by rewrite andb_false_r.
Qed.

(** A poll over such an event returns without exception and leaves the
    text widget exactly as it was. *)
Lemma negative_location_poll_is_noop (w : World) etype location len :
  Queue.items (gui_queue w) = [Ev etype location len] ->
  Queue.wf (gui_queue w) ->
  location < 0 ->
  exists w',
    process_gui_events 2 w = Some (inr tt, w') /\
    text_area w' = text_area w.
Proof.
  intros Hq Hwf Hneg. eexists. split.
  { apply process_gui_events_run; [rewrite Hq; simpl; lia|done]. }
  rewrite Hq. destruct w as [tq gq e ta lt ac rd].
  cbn [text_area set_after_calls set_gui_queue set_text_area].
  cbn [apply_events fold_left]. by apply negative_location_ignored.
Qed.

Lemma apply_event_at_most_one ev ta :
  (length (Tk.tag_ranges HIGHLIGHT_TAG ta) <= 1)%nat ->
  (length (Tk.tag_ranges HIGHLIGHT_TAG (apply_event ev ta)) <= 1)%nat.
Proof.
  intros H. destruct ev as [|et l n]; simpl; [done|].
  destruct (_ && _); [|done].
  rewrite highlight_ranges. destruct (_ <? _)%nat; simpl; lia.
Qed.

Lemma apply_events_at_most_one evs ta :
  (length (Tk.tag_ranges HIGHLIGHT_TAG ta) <= 1)%nat ->
  (length (Tk.tag_ranges HIGHLIGHT_TAG (apply_events evs ta)) <= 1)%nat.
Proof.
  revert ta; induction evs as [|ev evs IH]; intros ta H; simpl; [done|].
  apply IH. by apply apply_event_at_most_one.
Qed.

Lemma apply_events_length evs ta :
  length (Tk.cells (apply_events evs ta)) = length (Tk.cells ta).
Proof. by rewrite <- !get_all_length, apply_events_get_all. Qed.

(** C1 (code at the failing input).  The text is "Hello world" with
    "Hello" highlighted; the event (6, 100) reaches past the end of the
    text.  The poll returns without exception, but the display is not left
    as it was: the old highlight is removed and the range from 6 to the end
    of the widget's content is highlighted instead. *)
Theorem C1_event_past_end_changes_display :
  let text := Py.of_string "Hello world" in
  let shown := set_text_area
                 (highlight 0 5 (Tk.of_str text)) (world_showing text) in
  let w := with_events [Ev "word" 6 100] shown in
  Tk.tag_ranges HIGHLIGHT_TAG (text_area w) = [(0%nat, 5%nat)] /\
  Z.of_nat (length text) < 6 + 100 /\
  exists w',
    process_gui_events 2 w = Some (inr tt, w') /\
    Tk.tag_ranges HIGHLIGHT_TAG (text_area w') = [(6%nat, 12%nat)] /\
    text_area w' <> text_area w.
Proof.
  cbv zeta. split; [by vm_compute|]. split; [by vm_compute|].
  eexists. split; [vm_compute; reflexivity|].
  split; [by vm_compute|].
  intros Heq.
  apply (f_equal (Tk.tag_ranges HIGHLIGHT_TAG)) in Heq.
  vm_compute in Heq. discriminate Heq.
Qed.

Lemma slice_in_bounds (s : Py.str) (a b : Z) :
  0 <= a -> a <= b -> b <= Z.of_nat (length s) ->
  Py.slice s a b = take (Z.to_nat b - Z.to_nat a) (drop (Z.to_nat a) s).
Proof.
  intros Ha Hab Hb. unfold Py.slice, Py.slice_bound.
  destruct (Z.ltb_spec a 0); [lia|]. destruct (Z.ltb_spec b 0); [lia|].
  by rewrite !Z.min_l by lia.
Qed.

(** C2 (as amended: the event has a positive length).  Whatever events were
    handled before it in the same poll, a word event (location, len) with
    0 <= location, 0 < len and location + len <= len(text) is handled by
    the four widget calls in order: the tag is removed from the whole text,
    which leaves no highlighted span, then added to the range; the poll
    ends without exception with exactly one highlighted span, from location
    to location + len, whose characters are text[location:location+len];
    the text itself is unchanged and the view was moved to location. *)
Theorem C2_in_bounds_event_highlights_its_span
    (w : World) (evs : list gui_event) (location len : Z) (fuel : nat) :
  Queue.items (gui_queue w) = evs ++ [Ev "word" location len] ->
  Queue.wf (gui_queue w) ->
  (length evs + 1 < fuel)%nat ->
  0 <= location -> 0 < len ->
  location + len <= Z.of_nat (length (Tk.get_all (text_area w))) ->
  exists w',
    process_gui_events fuel w = Some (inr tt, w') /\
    let before := apply_events evs (text_area w) in
    let cleared := Tk.tag_remove HIGHLIGHT_TAG Tk.Idx_1_0 Tk.Idx_END before in
    let start := Tk.Idx_plus_chars Tk.Idx_1_0 location in
    let span := (Z.to_nat location, Z.to_nat (location + len)) in
    Tk.tag_ranges HIGHLIGHT_TAG cleared = [] /\
    text_area w'
    = Tk.see start
        (Tk.tag_config HIGHLIGHT_TAG HIGHLIGHT_BG
           (Tk.tag_add HIGHLIGHT_TAG start (Tk.Idx_plus_chars start len)
              cleared)) /\
    Tk.tag_ranges HIGHLIGHT_TAG (text_area w') = [span] /\
    Tk.span_text (text_area w') span
    = Py.slice (Tk.get_all (text_area w)) location (location + len) /\
    Tk.get_all (text_area w') = Tk.get_all (text_area w) /\
    Tk.view (text_area w') = Some (Z.to_nat location).
Proof.
  intros Hq Hwf Hfuel Hloc Hlen Hin.
  eexists. split.
  { apply process_gui_events_run; [|done].
    rewrite Hq, length_app. simpl. lia. }
  cbv zeta. rewrite Hq.
  destruct w as [tq gq e ta lt ac rd].
  cbn [text_area set_after_calls set_gui_queue set_text_area] in *.
  rewrite apply_events_app. cbn [apply_events fold_left apply_event].
  destruct (Z.ltb_spec location 0) as [|_]; [lia|].
  cbn [String.eqb Ascii.eqb Bool.eqb andb negb].
  set (before := apply_events evs ta).
  assert (Hn : length (Tk.cells before) = length (Tk.get_all ta)).
  { subst before. by rewrite apply_events_length, get_all_length. }
  split; [apply tag_ranges_remove_all|].
  split; [reflexivity|].
  assert (Hr : Tk.tag_ranges HIGHLIGHT_TAG (highlight location len before)
               = [(Z.to_nat location, Z.to_nat (location + len))]).
  { rewrite highlight_ranges. cbv zeta. rewrite Hn.
    rewrite span_lo_in_bounds, span_hi_in_bounds by lia.
    destruct (Nat.ltb_spec (Z.to_nat location) (Z.to_nat (location + len)));
      [done|lia]. }
  split; [exact Hr|].
  assert (Hg : Tk.get_all (highlight location len before) = Tk.get_all ta).
  { subst before. by rewrite highlight_get_all, apply_events_get_all. }
  split.
  { unfold Tk.span_text. cbn [fst snd]. rewrite Hg.
    by rewrite slice_in_bounds by lia. }
  split; [exact Hg|].
  rewrite highlight_view, Hn. f_equal. apply span_lo_in_bounds. lia.
Qed.

Lemma C2_in_bounds_event_highlights_its_span_witness :
  let text := Py.of_string "Hello world" in
  let w := with_events [Ev "word" 0 5; Ev "word" 6 5] (world_showing text) in
  exists w',
    process_gui_events 3 w = Some (inr tt, w') /\
    Tk.tag_ranges HIGHLIGHT_TAG (text_area w') = [(6%nat, 11%nat)] /\
    Tk.span_text (text_area w') (6%nat, 11%nat) = Py.of_string "world".
Proof.
  cbv zeta.
  destruct (C2_in_bounds_event_highlights_its_span
              (with_events [Ev "word" 0 5; Ev "word" 6 5]
                 (world_showing (Py.of_string "Hello world")))
              [Ev "word" 0 5] 6 5 3%nat)
    as (w' & Hrun & _ & _ & Hranges & Hspan & _ & _).
  - reflexivity.
  - unfold Queue.wf. simpl. lia.
  - simpl. lia.
  - lia.
  - lia.
  - vm_compute. discriminate.
  - exists w'. split; [exact Hrun|]. split; [exact Hranges|]. exact Hspan.
Defined.

(** C2 (counterexample to the claim as stated).  The event (3, 0) lies
    within "Hello world", yet handling it leaves no highlighted span at
    all: [tag_add] has no effect on an empty range. *)
Lemma C2_zero_length_event_highlights_nothing :
  let text := Py.of_string "Hello world" in
  let shown := set_text_area
                 (highlight 0 5 (Tk.of_str text)) (world_showing text) in
  let w := with_events [Ev "word" 3 0] shown in
  0 <= 3 /\ 3 + 0 <= Z.of_nat (length (Tk.get_all (text_area w))) /\
  exists w',
    process_gui_events 2 w = Some (inr tt, w') /\
    Tk.tag_ranges HIGHLIGHT_TAG (text_area w') = [] /\
    length (Tk.tag_ranges HIGHLIGHT_TAG (text_area w')) <> 1%nat.
Proof.
  cbv zeta. split; [lia|]. split; [by vm_compute|].
  eexists. split; [vm_compute; reflexivity|].
  split; [by vm_compute|]. by vm_compute.
Qed.

(** C8.  Highlight exclusivity is preserved by the polling loop: started
    with at most one highlighted span, a poll over any queue of events, in
    bounds or not, ends without exception with at most one highlighted
    span.  Within the handling of one event the tag is first removed
    everywhere (no span is left) and then added to one range, so a newly
    applied highlight replaces the prior one: after a poll whose last event
    is a word event with a location >= 0, the highlighted spans are
    determined by that event alone. *)
Theorem C8_at_most_one_highlighted_span (w : World) (fuel : nat) :
  Queue.wf (gui_queue w) ->
  (length (Queue.items (gui_queue w)) < fuel)%nat ->
  (length (Tk.tag_ranges HIGHLIGHT_TAG (text_area w)) <= 1)%nat ->
  exists w',
    process_gui_events fuel w = Some (inr tt, w') /\
    (length (Tk.tag_ranges HIGHLIGHT_TAG (text_area w')) <= 1)%nat /\
    (forall ta,
       Tk.tag_ranges HIGHLIGHT_TAG
         (Tk.tag_remove HIGHLIGHT_TAG Tk.Idx_1_0 Tk.Idx_END ta) = []) /\
    (forall evs location len,
       Queue.items (gui_queue w) = evs ++ [Ev "word" location len] ->
       0 <= location ->
       let n := length (Tk.cells (text_area w)) in
       Tk.tag_ranges HIGHLIGHT_TAG (text_area w')
       = if (span_lo n location <? span_hi n location len)%nat
         then [(span_lo n location, span_hi n location len)] else []).
Proof.
  intros Hwf Hfuel Hone.
  eexists. split; [by apply process_gui_events_run|].
  destruct w as [tq gq e ta lt ac rd].
  cbn [text_area set_after_calls set_gui_queue set_text_area gui_queue] in *.
  split; [by apply apply_events_at_most_one|].
  split; [intros ta0; apply tag_ranges_remove_all|].
  intros evs location len Hq Hloc. cbv zeta. rewrite Hq.
  rewrite apply_events_app. cbn [apply_events fold_left apply_event].
  destruct (Z.ltb_spec location 0) as [|_]; [lia|].
  cbn [String.eqb Ascii.eqb Bool.eqb andb negb].
  rewrite highlight_ranges. cbv zeta.
  fold (apply_events evs ta). by rewrite apply_events_length.
Qed.

Lemma C8_at_most_one_highlighted_span_witness :
  let text := Py.of_string "Hello world" in
  let w := with_events [Ev "word" 0 5; Ev "word" 50 3; Ev "word" (-1) 4;
                        Ev "word" 6 5]
             (world_showing text) in
  exists w',
    process_gui_events 5 w = Some (inr tt, w') /\
    (length (Tk.tag_ranges HIGHLIGHT_TAG (text_area w')) <= 1)%nat.
Proof.
  cbv zeta.
  destruct (C8_at_most_one_highlighted_span
              (with_events [Ev "word" 0 5; Ev "word" 50 3; Ev "word" (-1) 4;
                            Ev "word" 6 5]
                 (world_showing (Py.of_string "Hello world")))
              5%nat)
    as (w' & Hrun & Hone & _).
  - unfold Queue.wf. simpl. lia.
  - simpl. lia.
  - vm_compute. lia.
  - exists w'. split; [exact Hrun|exact Hone].
Defined.

End Highlight.

(** ** start_reading: the text snapshot *)

Module Reading.

Lemma forallb_rev {A} (f : A -> bool) (l : list A) :
  forallb f (rev l) = forallb f l.
Proof.
  induction l as [|x l IH]; simpl; [done|].
  rewrite forallb_app, IH. simpl. rewrite andb_true_r. apply andb_comm.
Qed.

Lemma lstrip_split (s : Py.str) :
  exists ws, s = ws ++ Py.lstrip s /\ forallb Py.isspace ws = true.
Proof.
  induction s as [|c s (ws & Hs & Hws)]; simpl.
  - by exists [].
  - destruct (Py.isspace c) eqn:Hc.
    + exists (c :: ws). simpl. rewrite Hc, Hws. split; [by f_equal|done].
    + by exists [].
Qed.

Lemma lstrip_head (s : Py.str) c rest :
  Py.lstrip s = c :: rest -> Py.isspace c = false.
Proof.
  induction s as [|d s IH]; simpl; [done|].
  destruct (Py.isspace d) eqn:Hd; [exact IH|].
  intros [= <- _]. done.
Qed.

Lemma forallb_lstrip (s : Py.str) :
  forallb Py.isspace (Py.lstrip s) = forallb Py.isspace s.
Proof.
  induction s as [|c s IH]; simpl; [done|].
  destruct (Py.isspace c) eqn:Hc; simpl; [done|]. by rewrite Hc.
Qed.

Lemma truthy_lstrip (s : Py.str) :
  Py.truthy (Py.lstrip s) = negb (forallb Py.isspace s).
Proof.
  induction s as [|c s IH]; simpl; [done|].
  destruct (Py.isspace c); simpl; done.
Qed.

Lemma forallb_rstrip (s : Py.str) :
  forallb Py.isspace (Py.rstrip s) = forallb Py.isspace s.
Proof. unfold Py.rstrip. by rewrite forallb_rev, forallb_lstrip, forallb_rev. Qed.

(** The test of line 134, on the raw content of the widget. *)
Lemma blank_test (raw : Py.str) :
  Py.truthy (Py.strip (Py.rstrip raw)) = negb (forallb Py.isspace raw).
Proof. unfold Py.strip. by rewrite truthy_lstrip, !forallb_rstrip. Qed.

(** [rstrip] only removes a whitespace suffix. *)
Lemma rstrip_split (s : Py.str) :
  exists ws, s = Py.rstrip s ++ ws /\ forallb Py.isspace ws = true.
Proof.
  destruct (lstrip_split (rev s)) as (ws & Hs & Hws).
  exists (rev ws). split; [|by rewrite forallb_rev].
  unfold Py.rstrip. rewrite <- rev_app_distr, <- Hs. by rewrite rev_involutive.
Qed.

Lemma rstrip_last (s : Py.str) c :
  last (Py.rstrip s) = Some c -> Py.isspace c = false.
Proof.
  unfold Py.rstrip. destruct (Py.lstrip (rev s)) as [|d rest] eqn:Hl; [done|].
  simpl. rewrite last_snoc. intros [= <-]. by eapply lstrip_head.
Qed.

(** The newline Tk keeps at the end of the content never reaches the
    snapshot. *)
Lemma rstrip_of_str (s : Py.str) :
  Py.rstrip (Tk.get_all (Tk.of_str s)) = Py.rstrip s.
Proof.
  unfold Tk.get_all, Tk.of_str. cbn [Tk.cells].
  rewrite map_map. cbn [Tk.glyph]. rewrite map_id.
  unfold Py.rstrip. rewrite rev_app_distr. reflexivity.
Qed.

(** The state [start_reading] leaves when the text is not blank. *)
Definition reading_started (content : Py.str) (w : World) : World :=
  set_tts_queue (Queue.put (Some (mk_task "speak" content true)) (tts_queue w))
    (set_latest_text_for_tts (Some content) w).

Lemma start_reading_run (w : World) :
  let raw := Tk.get_all (text_area w) in
  start_reading w
  = (inr tt, if forallb Py.isspace raw then w
             else reading_started (Py.rstrip raw) w).
Proof.
  cbv zeta. unfold start_reading.
  cbv [mbind M_bind gets]. rewrite blank_test, negb_involutive.
  destruct (forallb Py.isspace _); reflexivity.
Qed.

(** C5.  [start_reading] never raises.  When the content of the text
    widget is empty or holds whitespace only, it leaves every global as it
    was; in particular nothing is put on [tts_queue].  Otherwise it puts
    exactly one task at the end of [tts_queue], a speak task with sync=True
    whose text is the snapshot [content], and changes nothing else but
    [latest_text_for_tts], which records the same snapshot. *)
Theorem C5_start_reading_blank_is_noop (w : World) :
  let raw := Tk.get_all (text_area w) in
  let content := Py.rstrip raw in
  let w' := snd (start_reading w) in
  fst (start_reading w) = inr tt /\
  (if forallb Py.isspace raw
   then w' = w
   else Queue.items (tts_queue w')
        = Queue.items (tts_queue w) ++ [Some (mk_task "speak" content true)] /\
        Queue.unfinished_tasks (tts_queue w')
        = S (Queue.unfinished_tasks (tts_queue w)) /\
        latest_text_for_tts w' = Some content /\
        w' = reading_started content w /\
        gui_queue w' = gui_queue w /\ text_area w' = text_area w /\
        engine_worker w' = engine_worker w).
Proof.
  cbv zeta. rewrite start_reading_run. cbn [fst snd]. split; [done|].
  destruct (forallb Py.isspace _); [done|].
  destruct w; repeat split.
Qed.

(** C10.  The text [start_reading] enqueues and records in
    [latest_text_for_tts] is the widget content with its trailing
    whitespace removed: the content is that snapshot followed by whitespace
    only, the snapshot does not end with a whitespace character, and the
    newline that the widget keeps after the text typed by the user is never
    part of it.  The blank test is made on this stripped text, and rejects
    exactly the contents that hold whitespace only. *)
Theorem C10_snapshot_is_rstripped_content (w : World) :
  let raw := Tk.get_all (text_area w) in
  let content := Py.rstrip raw in
  let w' := snd (start_reading w) in
  (exists ws, raw = content ++ ws /\ forallb Py.isspace ws = true) /\
  (forall c, last content = Some c -> Py.isspace c = false) /\
  (forall typed, text_area w = Tk.of_str typed ->
     content = Py.rstrip typed /\ (length content < length raw)%nat) /\
  Py.truthy (Py.strip content) = negb (forallb Py.isspace raw) /\
  (if Py.truthy (Py.strip content)
   then latest_text_for_tts w' = Some content /\
        Queue.items (tts_queue w')
        = Queue.items (tts_queue w) ++ [Some (mk_task "speak" content true)]
   else w' = w).
Proof.
  cbv zeta.
  split; [apply rstrip_split|].
  split; [apply rstrip_last|].
  split.
  { intros typed ->. rewrite rstrip_of_str. split; [done|].
    destruct (rstrip_split typed) as (ws & Hs & _).
    unfold Tk.get_all, Tk.of_str. cbn [Tk.cells].
    rewrite !length_map, length_app. simpl.
    rewrite Hs at 2. rewrite length_app. lia. }
  split; [apply blank_test|].
  rewrite start_reading_run, blank_test. cbn [snd].
  destruct (forallb Py.isspace _); simpl; [done|].
  by destruct w.
Qed.

End Reading.

(** ** The worker thread *)

Module Worker.

(** Several events put one after the other. *)
Definition put_all {A} (xs : list A) (q : Queue.t A) : Queue.t A :=
  Queue.mk (Queue.items q ++ xs) (Queue.unfinished_tasks q + length xs).

(** The events a list of word boundaries produces when the callbacks [cbs]
    are connected: one per boundary and callback. *)
Definition word_events (cbs : list callback) (wds : list (Z * Z))
    : list gui_event :=
  flat_map (fun wd => map (fun _ => Ev "word" (fst wd) (snd wd)) cbs) wds.

Lemma put_all_nil {A} (q : Queue.t A) : put_all [] q = q.
Proof. destruct q. unfold put_all; simpl. by rewrite app_nil_r, Nat.add_0_r. Qed.

Lemma put_all_app {A} (xs ys : list A) q :
  put_all ys (put_all xs q) = put_all (xs ++ ys) q.
Proof.
  unfold put_all; simpl. rewrite app_assoc, length_app. f_equal. lia.
Qed.

Lemma put_put_all {A} (x : A) xs q :
  put_all xs (Queue.put x q) = put_all (x :: xs) q.
Proof.
  unfold put_all, Queue.put; simpl. rewrite <- app_assoc. simpl. f_equal. lia.
Qed.

Lemma put_all_one {A} (x : A) q : put_all [x] q = Queue.put x q.
Proof. unfold put_all, Queue.put; simpl. f_equal. lia. Qed.

Lemma word_events_no_listener wds : word_events [] wds = [].
Proof. induction wds; simpl; auto. Qed.

Section WithDriver.
Variable driver : Py.str -> Engine.synthesis.

Lemma callbacks_run (cbs : list callback) (l n : Z) (w : World) :
  for_each cbs (fun c =>
    try_except (call c None l n) (fun _ => mret tt)) w
  = (inr tt,
     set_gui_queue (put_all (map (fun _ => Ev "word" l n) cbs) (gui_queue w)) w).
Proof.
  revert w; induction cbs as [|c cbs IH]; intros w.
  - simpl. rewrite put_all_nil. by destruct w.
  - cbn [for_each]. unfold mbind, M_bind. destruct c. 
    unfold try_except at 1. cbn [call on_word gui_queue_put modify].
    rewrite IH. destruct w. cbn [gui_queue set_gui_queue map].
    by rewrite put_put_all.
Qed.

Lemma notify_started_word_run (l n : Z) (w : World) :
  notify_started_word l n w
  = (inr tt,
     set_gui_queue
       (put_all (map (fun _ => Ev "word" l n)
                     (Engine.listeners "started-word" (engine_worker w)))
                (gui_queue w)) w).
Proof.
  unfold notify_started_word, mbind, M_bind, gets. apply callbacks_run.
Qed.

Lemma words_run (wds : list (Z * Z)) (w : World) :
  for_each wds (fun wd => notify_started_word (fst wd) (snd wd)) w
  = (inr tt,
     set_gui_queue
       (put_all (word_events (Engine.listeners "started-word" (engine_worker w)) wds)
                (gui_queue w)) w).
Proof.
  revert w; induction wds as [|wd wds IH]; intros w.
  - simpl. rewrite put_all_nil. by destruct w.
  - cbn [for_each]. unfold mbind, M_bind.
    rewrite notify_started_word_run, IH.
    destruct w. cbn [gui_queue set_gui_queue engine_worker word_events flat_map].
    by rewrite put_all_app.
Qed.

(** The world after the utterance [s] was spoken with the connected
    callbacks listening. *)
Definition spoken (s : Py.str) (w : World) : World :=
  set_gui_queue
    (put_all (word_events (Engine.listeners "started-word" (engine_worker w))
                          (Engine.words (driver s)))
             (gui_queue w)) w.

Lemma bind_run {A B} (m : M A) (f : A -> M B) (w : World) :
  (m ≫= f) w
  = match m w with
    | (inr x, w') => f x w'
    | (inl e, w') => (inl e, w')
    end.
Proof. reflexivity. Qed.

(** [say(s); runAndWait()] on an engine with nothing else queued. *)
Lemma say_runAndWait (s : Py.str) (w : World) :
  Engine.utterances (engine_worker w) = [] ->
  (engine_say s ;; runAndWait driver) w
  = (if Engine.raises (driver s) then inl EngineError else inr tt,
     spoken s w).
Proof.
  intros Hu. destruct w as [tq gq [cn us] ta lt ac rd]. simpl in Hu. subst us.
  rewrite bind_run. unfold engine_say, modify, runAndWait.
  rewrite bind_run. unfold gets.
  cbn [engine_worker set_engine_worker Engine.say Engine.utterances
       Engine.connects app for_each].
  rewrite bind_run, bind_run. unfold pop_utterance, modify.
  cbn [engine_worker set_engine_worker Engine.utterances Engine.connects tail].
  rewrite bind_run, words_run. unfold spoken.
  cbn [engine_worker set_gui_queue gui_queue Engine.connects].
  destruct (Engine.raises (driver s)); reflexivity.
Qed.

(** *** One step of the worker, case by case *)

Definition after_get (rest : list (option task)) (w : World) : World :=
  set_tts_queue (Queue.mk rest (Queue.unfinished_tasks (tts_queue w))) w.

Definition after_task_done (w : World) : World :=
  set_tts_queue
    (Queue.mk (Queue.items (tts_queue w))
              (pred (Queue.unfinished_tasks (tts_queue w)))) w.

Definition started_word_token : Engine.token :=
  Engine.mk_token "started-word" on_word_cb.

Definition connected (w : World) : World :=
  set_engine_worker
    (snd (Engine.connect "started-word" on_word_cb (engine_worker w))) w.

(** The [try: disconnect(cid)  except Exception: pass] of lines 41-44. *)
Definition disconnected (cid : option Engine.token) (w : World) : World :=
  match cid with
  | None => w
  | Some tok =>
      match Engine.disconnect tok (engine_worker w) with
      | inr e => set_engine_worker e w
      | inl _ => w
      end
  end.

Lemma tts_task_done_run (w : World) :
  (0 < Queue.unfinished_tasks (tts_queue w))%nat ->
  tts_task_done w = (inr tt, after_task_done w).
Proof.
  intros Hu. destruct w as [[ti tu] gq e ta lt ac rd]. simpl in Hu.
  destruct tu as [|tu]; [lia|]. reflexivity.
Qed.

(** The sentinel: [task_done], then [break]. *)
Lemma step_idle_sentinel (w : World) rest :
  Queue.items (tts_queue w) = None :: rest ->
  (0 < Queue.unfinished_tasks (tts_queue w))%nat ->
  tts_worker_step driver Idle w
  = Some (Terminated, after_task_done (after_get rest w)).
Proof.
  intros Hq Hu. unfold tts_worker_step. rewrite Hq.
  unfold tts_worker_dequeue. rewrite bind_run.
  unfold tts_get, Queue.get_nowait. rewrite Hq.
  fold (after_get rest w).
  rewrite bind_run, tts_task_done_run; [done|by destruct w].
Qed.

(** A speak task: the callback is connected when the task asks for it. *)
Lemma step_idle_speak (w : World) t rest :
  Queue.items (tts_queue w) = Some t :: rest ->
  ttype t = "speak" ->
  tts_worker_step driver Idle w
  = Some (if sync t
          then (Speaking (text t) (Some started_word_token),
                connected (after_get rest w))
          else (Speaking (text t) None, after_get rest w)).
Proof.
  intros Hq Ht. unfold tts_worker_step. rewrite Hq.
  unfold tts_worker_dequeue. rewrite bind_run.
  unfold tts_get, Queue.get_nowait. rewrite Hq.
  fold (after_get rest w). rewrite Ht. cbn [String.eqb Ascii.eqb Bool.eqb].
  destruct (sync t); [|done].
  rewrite bind_run. unfold engine_connect, connected, Engine.connect.
  reflexivity.
Qed.

(** A task of another type is only marked done. *)
Lemma step_idle_other (w : World) t rest :
  Queue.items (tts_queue w) = Some t :: rest ->
  String.eqb (ttype t) "speak" = false ->
  (0 < Queue.unfinished_tasks (tts_queue w))%nat ->
  tts_worker_step driver Idle w
  = Some (Idle, after_task_done (after_get rest w)).
Proof.
  intros Hq Ht Hu. unfold tts_worker_step. rewrite Hq.
  unfold tts_worker_dequeue. rewrite bind_run.
  unfold tts_get, Queue.get_nowait. rewrite Hq.
  fold (after_get rest w). rewrite Ht.
  rewrite bind_run, tts_task_done_run; [done|by destruct w].
Qed.

Lemma step_idle_blocked (w : World) :
  Queue.items (tts_queue w) = [] -> tts_worker_step driver Idle w = None.
Proof. intros Hq. unfold tts_worker_step. by rewrite Hq. Qed.

Lemma disconnect_run (tok : Engine.token) (w : World) :
  try_except (engine_disconnect tok) (fun _ => mret tt) w
  = (inr tt, disconnected (Some tok) w).
Proof.
  unfold try_except, engine_disconnect, lift_result, disconnected.
  by destruct (Engine.disconnect tok (engine_worker w)).
Qed.

(** Speaking: the events are posted while the utterance is spoken; an
    exception of the driver leaves [tts_worker] at once, otherwise the
    callback is disconnected (a failure of [disconnect] is ignored) and the
    task is marked done. *)
Lemma step_speaking (w : World) s cid :
  Engine.utterances (engine_worker w) = [] ->
  (0 < Queue.unfinished_tasks (tts_queue w))%nat ->
  tts_worker_step driver (Speaking s cid) w
  = Some (if Engine.raises (driver s)
          then (Crashed EngineError, spoken s w)
          else (Idle, after_task_done (disconnected cid (spoken s w)))).
Proof.
  intros Hu Hq. unfold tts_worker_step, tts_worker_speak.
  pose proof (say_runAndWait s w Hu) as Hrun.
  rewrite bind_run in Hrun.
  rewrite bind_run.
  destruct (engine_say s w) as [[e1|[]] w1] eqn:Hsay.
  { unfold engine_say, modify in Hsay. discriminate Hsay. }
  rewrite bind_run, Hrun.
  destruct (Engine.raises (driver s)); [done|].
  rewrite bind_run.
  assert (Hd : match cid with
               | Some cid0 => try_except (engine_disconnect cid0) (fun _ => mret tt)
               | None => mret tt
               end (spoken s w) = (inr tt, disconnected cid (spoken s w))).
  { destruct cid as [tok|]; [apply disconnect_run|done]. }
  rewrite Hd, bind_run, tts_task_done_run; [done|].
  destruct cid as [tok|]; unfold disconnected, spoken.
  - destruct (Engine.disconnect _ _); by destruct w.
  - by destruct w.
Qed.

End WithDriver.

End Worker.

(** ** The two threads together: invariants *)

Module Interleaving.
Import Worker System.

(** The task the worker holds between its [get] and its [task_done]. *)
Definition in_flight (pc : worker_pc) : nat :=
  match pc with
  | Speaking _ _ | Crashed _ => 1
  | Idle | Terminated => 0
  end.

(** The engine as the worker leaves it at each point of its loop. *)
Definition engine_at (pc : worker_pc) (e : Engine.t) : Prop :=
  match pc with
  | Idle | Terminated | Speaking _ None =>
      Engine.utterances e = [] /\ Engine.connects e !! "started-word" = None
  | Speaking _ (Some tok) =>
      Engine.utterances e = [] /\ tok = started_word_token /\
      Engine.connects e !! "started-word" = Some [on_word_cb]
  | Crashed _ => True
  end.

Definition is_speak (x : option task) : Prop :=
  match x with Some t => ttype t = "speak" | None => True end.

(** What holds of a state reached from [boot] by the trace [tr]. *)
Record invariant (tr : list label) (s : t) : Prop := mk_invariant {
  inv_inbound :
    submitted tr = dequeued tr ++ Queue.items (tts_queue (globals s));
  inv_unfinished :
    Queue.unfinished_tasks (tts_queue (globals s))
    = (length (Queue.items (tts_queue (globals s))) + in_flight (worker s))%nat;
  inv_outbound :
    emitted tr = handled tr ++ Queue.items (gui_queue (globals s));
  inv_gui_wf : Queue.wf (gui_queue (globals s));
  inv_engine : engine_at (worker s) (engine_worker (globals s));
  inv_speak : Forall is_speak (submitted tr);
  inv_sentinel :
    match main s with
    | MainLoop => None ∉ submitted tr
    | Joining | Closed =>
        exists cmds, submitted tr = cmds ++ [None] /\ None ∉ cmds
    end;
  inv_terminated : worker s = Terminated <-> None ∈ dequeued tr;
  inv_destroyed : root_destroyed (globals s) = true -> main s = Closed;
  inv_closed :
    main s = Closed -> Queue.unfinished_tasks (tts_queue (globals s)) = 0%nat
}.

Section WithDriver.
Variable driver : Py.str -> Engine.synthesis.

Local Abbreviation step := (System.step driver).
Local Abbreviation exec := (System.exec driver).

Lemma submitted_snoc tr l :
  submitted (tr ++ [l]) = submitted tr ++ match l with Submit ts => ts | _ => [] end.
Proof. unfold submitted. rewrite flat_map_app. simpl. by rewrite app_nil_r. Qed.

Lemma dequeued_snoc tr l :
  dequeued (tr ++ [l]) = dequeued tr ++ match l with Dequeue x => [x] | _ => [] end.
Proof. unfold dequeued. rewrite flat_map_app. simpl. by rewrite app_nil_r. Qed.

Lemma emitted_snoc tr l :
  emitted (tr ++ [l]) = emitted tr ++ match l with Emit evs => evs | _ => [] end.
Proof. unfold emitted. rewrite flat_map_app. simpl. by rewrite app_nil_r. Qed.

Lemma handled_snoc tr l :
  handled (tr ++ [l]) = handled tr ++ match l with Handle evs => evs | _ => [] end.
Proof. unfold handled. rewrite flat_map_app. simpl. by rewrite app_nil_r. Qed.

Lemma invariant_boot : invariant [] boot.
Proof.
  constructor; simpl; try done.
  - unfold Queue.wf. simpl. lia.
  - apply not_elem_of_nil.
  - split; [done|]. intros H. by apply elem_of_nil in H.
Qed.

(** The worker takes the head of [tts_queue]. *)
Lemma invariant_dequeue tr g m x rest pc' g' :
  invariant tr (mk g Idle m) ->
  m <> Closed ->
  Queue.items (tts_queue g) = x :: rest ->
  tts_worker_step driver Idle g = Some (pc', g') ->
  invariant (tr ++ [Dequeue x]) (mk g' pc' m).
Proof.
  intros [Hin Hun Hout Hwf Heng Hsp Hsen Hterm Hdes Hcl] Hm Hq Hstep.
  cbn [globals worker main] in *. rewrite Hq in Hin, Hun. simpl in Hun.
  assert (Hnot : None ∉ dequeued tr).
  { intros H. apply Hterm in H. discriminate H. }
  assert (Hx : is_speak x).
  { rewrite Hin in Hsp. apply Forall_app in Hsp as [_ Hsp].
    by apply Forall_cons in Hsp as [Hsp _]. }
  destruct x as [t|].
  - simpl in Hx. rewrite (step_idle_speak driver g t rest Hq Hx) in Hstep.
    assert (Hcommon : forall g1 cid,
      tts_queue g1 = tts_queue (after_get rest g) ->
      gui_queue g1 = gui_queue g ->
      root_destroyed g1 = root_destroyed g ->
      engine_at (Speaking (text t) cid) (engine_worker g1) ->
      invariant (tr ++ [Dequeue (Some t)]) (mk g1 (Speaking (text t) cid) m)).
    { intros g1 cid Htq Hgq Hrd He.
      constructor; simpl;
        rewrite ?submitted_snoc, ?dequeued_snoc, ?emitted_snoc, ?handled_snoc,
                ?app_nil_r, ?Htq, ?Hgq, ?Hrd; try done.
      - rewrite Hin, <- app_assoc. by destruct g.
      - destruct g. simpl in *. lia.
      - split; [done|]. intros H. apply elem_of_app in H as [H|H]; [done|].
        apply list_elem_of_singleton in H. discriminate H. }
    destruct (sync t); injection Hstep as <- <-.
    + apply Hcommon; try by destruct g.
      destruct Heng as [Hu Hc]. unfold connected, Engine.connect.
      destruct g as [tq gq [cn us] ta lt ac rd]. simpl in *.
      rewrite Hc. simpl. split; [done|]. split; [done|].
      apply lookup_insert_eq.
    + apply Hcommon; try by destruct g.
  - rewrite (step_idle_sentinel driver g rest Hq) in Hstep by lia.
    injection Hstep as <- <-.
    constructor; simpl;
      rewrite ?submitted_snoc, ?dequeued_snoc, ?emitted_snoc, ?handled_snoc,
              ?app_nil_r; try done; try by destruct g.
    + rewrite Hin, <- app_assoc. by destruct g.
    + destruct g. simpl in *. lia.
    + split; [|done]. intros _. apply elem_of_app. right.
      by apply list_elem_of_singleton.
Qed.

Ltac snoc_simpl :=
  rewrite ?submitted_snoc, ?dequeued_snoc, ?emitted_snoc, ?handled_snoc,
          ?app_nil_r.

(** The worker speaks the task it holds. *)
Lemma invariant_speak tr g m s cid pc' g' evs :
  invariant tr (mk g (Speaking s cid) m) ->
  m <> Closed ->
  tts_worker_step driver (Speaking s cid) g = Some (pc', g') ->
  Queue.items (gui_queue g') = Queue.items (gui_queue g) ++ evs ->
  invariant (tr ++ [Emit evs]) (mk g' pc' m).
Proof.
  intros [Hin Hun Hout Hwf Heng Hsp Hsen Hterm Hdes Hcl] Hm Hstep Hevs.
  cbn [globals worker main] in *. simpl in Hun.
  assert (Hu : Engine.utterances (engine_worker g) = []).
  { destruct cid; simpl in Heng; tauto. }
  rewrite (step_speaking driver g s cid Hu) in Hstep by lia.
  assert (Hno : None ∉ dequeued tr).
  { intros H. apply Hterm in H. discriminate H. }
  assert (Hwf' : Queue.wf (gui_queue (spoken driver s g))).
  { unfold Queue.wf in *. destruct g; simpl in *. rewrite length_app. lia. }
  destruct (Engine.raises (driver s)); injection Hstep as <- <-.
  - constructor; cbn [globals worker main]; snoc_simpl; try done;
      try by destruct g.
    rewrite Hevs, Hout. by rewrite app_assoc.
  - assert (Hd : exists e,
        disconnected cid (spoken driver s g)
        = set_engine_worker e (spoken driver s g) /\
        Engine.utterances e = [] /\
        Engine.connects e !! "started-word" = None).
    { destruct cid as [tok|]; simpl in Heng.
      - destruct Heng as (_ & -> & Hc).
        unfold disconnected, Engine.disconnect.
        destruct g as [tq gq [cn us] ta lt ac rd]. simpl in *. subst us.
        rewrite Hc. simpl. eexists. split; [reflexivity|]. simpl.
        split; [done|]. apply lookup_delete_eq.
      - exists (engine_worker g). split; [by destruct g|]. by destruct g. }
    destruct Hd as (e & Hd & He1 & He2). rewrite Hd in *.
    constructor; cbn [globals worker main]; snoc_simpl; try done;
      try (by destruct g);
      first [ solve [destruct g; simpl in *; lia]
            | solve [rewrite Hevs, Hout; by rewrite app_assoc] ].
Qed.

(** A step of the main thread that only appends tasks to [tts_queue]. *)
Lemma invariant_submit tr g g' pc ts :
  invariant tr (mk g pc MainLoop) ->
  tts_queue g' = put_all ts (tts_queue g) ->
  gui_queue g' = gui_queue g ->
  engine_worker g' = engine_worker g ->
  root_destroyed g' = root_destroyed g ->
  Forall is_speak ts -> None ∉ ts ->
  invariant (tr ++ [Submit ts]) (mk g' pc MainLoop).
Proof.
  intros [Hin Hun Hout Hwf Heng Hsp Hsen Hterm Hdes Hcl] Htq Hgq He Hrd Hts Hnone.
  cbn [globals worker main] in *.
  constructor; cbn [globals worker main]; snoc_simpl;
    rewrite ?Htq, ?Hgq, ?He, ?Hrd; try done.
  - simpl. by rewrite Hin, app_assoc.
  - simpl. rewrite length_app, Hun. lia.
  - by apply Forall_app.
  - by apply not_elem_of_app.
Qed.

Lemma invariant_read tr g g' pc ts :
  invariant tr (mk g pc MainLoop) ->
  start_reading g = (inr tt, g') ->
  Queue.items (tts_queue g') = Queue.items (tts_queue g) ++ ts ->
  invariant (tr ++ [Submit ts]) (mk g' pc MainLoop).
Proof.
  intros Hinv Hrun Hts. rewrite Reading.start_reading_run in Hrun.
  injection Hrun as <-.
  destruct (forallb Py.isspace _).
  - assert (ts = []) as ->.
    { apply (app_inv_head (Queue.items (tts_queue g))). by rewrite app_nil_r. }
    apply invariant_submit with (g := g); try done.
    + by rewrite put_all_nil.
    + apply not_elem_of_nil.
  - set (c := Py.rstrip _) in *.
    assert (ts = [Some (mk_task "speak" c true)]) as ->.
    { apply (app_inv_head (Queue.items (tts_queue g))). rewrite <- Hts.
      by destruct g. }
    apply invariant_submit with (g := g); try by destruct g.
    + rewrite put_all_one. by destruct g.
    + by repeat constructor.
    + intros H. apply list_elem_of_singleton in H. discriminate H.
Qed.

Lemma invariant_enqueue tr g g' pc s sy ts :
  invariant tr (mk g pc MainLoop) ->
  enqueue_speak s sy g = (inr tt, g') ->
  Queue.items (tts_queue g') = Queue.items (tts_queue g) ++ ts ->
  invariant (tr ++ [Submit ts]) (mk g' pc MainLoop).
Proof.
  intros Hinv Hrun Hts. unfold enqueue_speak, modify in Hrun.
  injection Hrun as <-.
  assert (ts = [Some (mk_task "speak" s sy)]) as ->.
  { apply (app_inv_head (Queue.items (tts_queue g))). rewrite <- Hts.
    by destruct g. }
  apply invariant_submit with (g := g); try by destruct g.
  - rewrite put_all_one. by destruct g.
  - by repeat constructor.
  - intros H. apply list_elem_of_singleton in H. discriminate H.
Qed.

(** A poll takes everything that waits in [gui_queue]. *)
Lemma invariant_poll tr g g' pc d rest r evs :
  invariant tr (mk g pc MainLoop) ->
  after_calls g = d :: rest ->
  process_gui_events (S (length (Queue.items (gui_queue g))))
                     (set_after_calls rest g) = Some (r, g') ->
  Queue.items (gui_queue g) = evs ++ Queue.items (gui_queue g') ->
  invariant (tr ++ [Handle evs]) (mk g' pc MainLoop).
Proof.
  intros [Hin Hun Hout Hwf Heng Hsp Hsen Hterm Hdes Hcl] Hac Hrun Hevs.
  cbn [globals worker main] in *.
  rewrite Polling.process_gui_events_run in Hrun;
    [|destruct g; simpl; lia|by destruct g].
  injection Hrun as _ Hg'.
  assert (Hnil : Queue.items (gui_queue g') = []) by (by subst g'; destruct g).
  rewrite Hnil, app_nil_r in Hevs.
  assert (Htq : tts_queue g' = tts_queue g) by (by subst g'; destruct g).
  assert (He : engine_worker g' = engine_worker g) by (by subst g'; destruct g).
  assert (Hrd : root_destroyed g' = root_destroyed g) by (by subst g'; destruct g).
  clear Hg'.
  constructor; cbn [globals worker main]; snoc_simpl;
    rewrite ?Htq, ?He, ?Hrd, ?Hnil, ?app_nil_r; try done.
  - by rewrite Hout, Hevs.
  - unfold Queue.wf. rewrite Hnil. simpl. lia.
Qed.

Lemma invariant_edit tr g pc s :
  invariant tr (mk g pc MainLoop) ->
  invariant (tr ++ [Tau]) (mk (set_text_area (Tk.of_str s) g) pc MainLoop).
Proof.
  intros [Hin Hun Hout Hwf Heng Hsp Hsen Hterm Hdes Hcl].
  cbn [globals worker main] in *.
  constructor; cbn [globals worker main]; snoc_simpl; try done;
    try by destruct g.
Qed.

(** The close request puts the sentinel behind everything submitted. *)
Lemma invariant_close tr g g' pc :
  invariant tr (mk g pc MainLoop) ->
  on_closing_put g = (inr tt, g') ->
  invariant (tr ++ [Submit [None]]) (mk g' pc Joining).
Proof.
  intros [Hin Hun Hout Hwf Heng Hsp Hsen Hterm Hdes Hcl] Hrun.
  cbn [globals worker main] in *.
  unfold on_closing_put, modify in Hrun. injection Hrun as <-.
  constructor; cbn [globals worker main]; snoc_simpl; try done;
    try by destruct g.
  - rewrite Hin, <- app_assoc. by destruct g.
  - destruct g as [[ti tu] gq e ta lt ac rd]. simpl in *.
    rewrite length_app. simpl. lia.
  - apply Forall_app. split; [done|]. by repeat constructor.
  - by exists (submitted tr).
  - intros H. destruct g; simpl in *. apply Hdes in H. discriminate H.
Qed.

Lemma invariant_join tr g g' pc :
  invariant tr (mk g pc Joining) ->
  Queue.join_ready (tts_queue g) = true ->
  on_closing_destroy g = (inr tt, g') ->
  invariant (tr ++ [Tau]) (mk g' pc Closed).
Proof.
  intros [Hin Hun Hout Hwf Heng Hsp Hsen Hterm Hdes Hcl] Hjoin Hrun.
  cbn [globals worker main] in *.
  unfold on_closing_destroy, modify in Hrun. injection Hrun as <-.
  constructor; cbn [globals worker main]; snoc_simpl; try done;
    try by destruct g.
  intros _. unfold Queue.join_ready in Hjoin.
  apply Nat.eqb_eq in Hjoin. by destruct g.
Qed.

Lemma invariant_step tr s l s' :
  invariant tr s -> step s l s' -> invariant (tr ++ [l]) s'.
Proof.
  intros Hinv Hstep. destruct Hstep.
  - eapply invariant_dequeue; eauto.
  - eapply invariant_speak; eauto.
  - eapply invariant_read; eauto.
  - eapply invariant_enqueue; eauto.
  - eapply invariant_poll; eauto.
  - by apply invariant_edit.
  - by eapply invariant_close.
  - by eapply invariant_join.
Qed.

(** Every state reached from [boot] satisfies the invariant. *)
Lemma invariant_exec tr s : exec boot tr s -> invariant tr s.
Proof.
  remember boot as s0 eqn:Hs0. induction 1 as [|s0 tr s1 l s2 _ IH Hstep].
  - subst. apply invariant_boot.
  - eapply invariant_step; eauto.
Qed.

(** *** Claims about the two threads *)

(** C9.  Both queues are FIFO.  Along every execution the tasks the worker
    has dequeued so far, in the order it dequeued them, followed by the
    tasks still waiting in [tts_queue], are the tasks submitted, in
    submission order; and the events handled by the polls so far, followed
    by those still waiting in [gui_queue], are the events the worker
    posted, in the order it posted them.  Step by step: a submission, also
    one made while the worker is speaking, leaves the worker where it is and
    puts the task behind everything queued; the worker dequeues only when
    idle, takes the head of the queue, and speaks the text of that task; a
    poll takes all waiting events and applies them to the text widget in
    queue order. *)
Theorem C9_both_queues_are_fifo tr s :
  exec boot tr s ->
  submitted tr = dequeued tr ++ Queue.items (tts_queue (globals s)) /\
  emitted tr = handled tr ++ Queue.items (gui_queue (globals s)) /\
  forall l s', step s l s' ->
    match l with
    | Submit ts =>
        worker s' = worker s /\
        Queue.items (tts_queue (globals s'))
        = Queue.items (tts_queue (globals s)) ++ ts
    | Dequeue x =>
        worker s = Idle /\
        Queue.items (tts_queue (globals s))
        = x :: Queue.items (tts_queue (globals s')) /\
        match x with
        | Some t => exists cid, worker s' = Speaking (text t) cid
        | None => worker s' = Terminated
        end
    | Emit evs =>
        Queue.items (gui_queue (globals s'))
        = Queue.items (gui_queue (globals s)) ++ evs
    | Handle evs =>
        evs = Queue.items (gui_queue (globals s)) /\
        Queue.items (gui_queue (globals s')) = [] /\
        text_area (globals s')
        = Polling.apply_events evs (text_area (globals s))
    | Tau => True
    end.
Proof.
  intros Hexec. pose proof (invariant_exec tr s Hexec) as Hinv.
  split; [apply Hinv|]. split; [apply Hinv|].
  intros l s' Hstep.
  pose proof (invariant_step tr s l s' Hinv Hstep) as Hinv'.
  destruct Hstep as [g g' pc' m x rest Hm Hq Hstep
                    |g g' txt cid pc' m evs Hm Hstep Hevs
                    |g g' pc ts Hrun Hts
                    |g g' pc txt sy ts Hrun Hts
                    |g g' pc d rest r evs Hac Hrun Hevs
                    |g pc txt
                    |g g' pc Hrun
                    |g g' pc Hjoin Hrun]; cbn [globals worker main]; try done.
  - split; [done|].
    destruct Hinv as [Hin Hun _ _ _ Hsp _ _ _ _].
    destruct Hinv' as [Hin' _ _ _ _ _ _ _ _ _].
    cbn [globals worker main] in *.
    rewrite dequeued_snoc, submitted_snoc, app_nil_r, Hin, <- app_assoc in Hin'.
    apply app_inv_head in Hin'. rewrite Hq in Hin'. simpl in Hin'.
    injection Hin' as <-. split; [done|].
    assert (Hx : is_speak x).
    { rewrite Hin, Hq in Hsp. apply Forall_app in Hsp as [_ Hsp].
      by apply Forall_cons in Hsp as [Hsp _]. }
    destruct x as [t|].
    + rewrite (step_idle_speak driver g t _ Hq Hx) in Hstep.
      destruct (sync t); injection Hstep as <- _; by eexists.
    + rewrite (step_idle_sentinel driver g _ Hq) in Hstep.
      * by injection Hstep as <- _.
      * rewrite Hun, Hq. simpl. lia.
  - destruct Hinv as [_ _ _ Hwf _ _ _ _ _ _]. cbn [globals] in Hwf.
    rewrite Polling.process_gui_events_run in Hrun;
      [|destruct g; simpl; lia|by destruct g].
    injection Hrun as _ Hg'.
    assert (Hnil : Queue.items (gui_queue g') = [])
      by (by subst g'; destruct g).
    rewrite Hnil, app_nil_r in Hevs. split; [done|]. split; [done|].
    subst g'. rewrite Hevs. by destruct g.
  - split; [done|]. unfold on_closing_put, modify in Hrun.
    injection Hrun as <-. by destruct g.
Qed.

(** C6.  The close handler puts one sentinel on [tts_queue] and blocks in
    [join]; in every execution in which it has returned (and the window has
    been destroyed), the worker has left its loop through the sentinel,
    [tts_queue] is empty with no task unfinished, every task submitted has
    been dequeued by the worker, and the tasks submitted are the commands
    followed by exactly one sentinel. *)
Theorem C6_close_handler_returns_after_drain tr s :
  exec boot tr s ->
  main s = Closed \/ root_destroyed (globals s) = true ->
  main s = Closed /\
  worker s = Terminated /\
  Queue.items (tts_queue (globals s)) = [] /\
  Queue.unfinished_tasks (tts_queue (globals s)) = 0%nat /\
  dequeued tr = submitted tr /\
  exists cmds, submitted tr = cmds ++ [None] /\ None ∉ cmds.
Proof.
  intros Hexec Hclosed.
  destruct (invariant_exec tr s Hexec)
    as [Hin Hun _ _ _ _ Hsen Hterm Hdes Hcl].
  assert (Hm : main s = Closed) by (destruct Hclosed; auto).
  specialize (Hcl Hm). rewrite Hm in Hsen. rewrite Hcl in Hun.
  assert (Hq : Queue.items (tts_queue (globals s)) = []).
  { apply nil_length_inv. lia. }
  rewrite Hq, app_nil_r in Hin.
  destruct Hsen as (cmds & Hcmds & Hnone).
  split; [done|]. split.
  { apply Hterm. rewrite <- Hin, Hcmds. apply elem_of_app. right.
    by apply list_elem_of_singleton. }
  split; [done|]. split; [done|]. split; [done|]. by exists cmds.
Qed.

Lemma listeners_none e :
  Engine.connects e !! "started-word" = None ->
  Engine.listeners "started-word" e = [].
Proof. intros H. unfold Engine.listeners. by rewrite H. Qed.

Lemma word_events_one wds :
  word_events [on_word_cb] wds = map (fun wd => Ev "word" (fst wd) (snd wd)) wds.
Proof. induction wds as [|wd wds IH]; simpl; [done|]. by rewrite <- IH. Qed.

(** C3.  In every state the two threads can reach, whatever was submitted
    and processed before: when the worker dequeues a speak task with
    sync=False it connects no callback and posts nothing; and while it
    speaks such a task no callback listens for word boundaries, so the
    synthesis, whether it ends normally or raises, leaves [gui_queue] as it
    was: the events of such a step are none. *)
Theorem C3_speak_without_sync_posts_no_event tr s :
  exec boot tr s ->
  (forall t rest,
     worker s = Idle ->
     Queue.items (tts_queue (globals s)) = Some t :: rest ->
     sync t = false ->
     exists g1,
       tts_worker_step driver Idle (globals s)
       = Some (Speaking (text t) None, g1) /\
       gui_queue g1 = gui_queue (globals s) /\
       Engine.listeners "started-word" (engine_worker g1) = []) /\
  (forall txt,
     worker s = Speaking txt None ->
     Engine.listeners "started-word" (engine_worker (globals s)) = [] /\
     (exists pc' g',
        tts_worker_step driver (Speaking txt None) (globals s) = Some (pc', g') /\
        gui_queue g' = gui_queue (globals s)) /\
     (forall evs s', step s (Emit evs) s' -> evs = [])).
Proof.
  intros Hexec.
  destruct (invariant_exec tr s Hexec) as [Hin Hun _ _ Heng Hsp _ _ _ _].
  destruct s as [g pc m]. cbn [globals worker main] in *.
  split.
  - intros t rest -> Hq Hsync.
    assert (Hx : ttype t = "speak").
    { rewrite Hin, Hq in Hsp. apply Forall_app in Hsp as [_ Hsp].
      by apply Forall_cons in Hsp as [Hsp _]. }
    rewrite (step_idle_speak driver g t rest Hq Hx), Hsync.
    eexists. split; [reflexivity|]. simpl in Heng. destruct Heng as [_ Hc].
    split; [by destruct g|]. apply listeners_none. by destruct g.
  - intros txt ->. simpl in Heng, Hun. destruct Heng as [Hu Hc].
    pose proof (listeners_none _ Hc) as Hl.
    assert (Hstep : exists pc' g',
      tts_worker_step driver (Speaking txt None) g = Some (pc', g') /\
      gui_queue g' = gui_queue g).
    { rewrite (step_speaking driver g txt None Hu) by lia.
      assert (Hs : gui_queue (spoken driver txt g) = gui_queue g).
      { unfold spoken. rewrite Hl, word_events_no_listener, put_all_nil.
        by destruct g. }
      destruct (Engine.raises (driver txt)); eexists _, _;
        (split; [reflexivity|]); [done|].
      rewrite <- Hs. simpl. by destruct (spoken driver txt g). }
    split; [done|]. split; [done|].
    intros evs s' Hst. inversion Hst as [|? g' ? ? ? ? ? _ Hrun Hevs| | | | | |]; subst.
    destruct Hstep as (pc2 & g2 & Hrun2 & Hg2).
    rewrite Hrun2 in Hrun. injection Hrun as _ <-.
    rewrite Hg2 in Hevs.
    apply (app_inv_head (Queue.items (gui_queue g))). by rewrite app_nil_r.
Qed.

(** A failure of [disconnect] does not stop the worker: whatever the
    engine holds, a read whose synthesis returned ends in [Idle]. *)
Lemma speaking_survives_disconnect (w : World) txt tok :
  Engine.utterances (engine_worker w) = [] ->
  (0 < Queue.unfinished_tasks (tts_queue w))%nat ->
  Engine.raises (driver txt) = false ->
  exists w',
    tts_worker_step driver (Speaking txt (Some tok)) w = Some (Idle, w') /\
    (forall e,
       Engine.disconnect tok (engine_worker w) = inl e ->
       engine_worker w' = engine_worker w).
Proof.
  intros Hu Hq Hr. rewrite (step_speaking driver w txt (Some tok) Hu Hq), Hr.
  eexists. split; [reflexivity|].
  intros e He. unfold disconnected, spoken.
  destruct w as [tq gq en ta lt ac rd]. cbn [engine_worker set_gui_queue] in *.
  by rewrite He.
Qed.

(** C4 (as amended: the callback is disconnected when synthesis returns,
    not when it raises).  In every reachable state: no callback is
    connected while the worker is idle, so none accumulates from one read
    to the next; dequeuing a task with sync=True connects the callback
    before speech starts; while such a task is spoken exactly one callback
    listens, each word boundary is posted once, and when synthesis returns
    the callback is disconnected and the worker is idle again, whereas when
    synthesis raises the exception ends the worker with the callback still
    connected.  Last, in any state of the engine, an exception of
    [disconnect] is caught: the read still ends in [Idle]. *)
Theorem C4_callback_connected_around_synthesis tr s :
  exec boot tr s ->
  (worker s = Idle ->
   Engine.listeners "started-word" (engine_worker (globals s)) = []) /\
  (forall t rest,
     worker s = Idle ->
     Queue.items (tts_queue (globals s)) = Some t :: rest ->
     sync t = true ->
     exists g1,
       tts_worker_step driver Idle (globals s)
       = Some (Speaking (text t) (Some started_word_token), g1) /\
       Engine.listeners "started-word" (engine_worker g1) = [on_word_cb]) /\
  (forall txt tok,
     worker s = Speaking txt (Some tok) ->
     Engine.listeners "started-word" (engine_worker (globals s)) = [on_word_cb] /\
     exists g',
       tts_worker_step driver (Speaking txt (Some tok)) (globals s)
       = Some (if Engine.raises (driver txt) then Crashed EngineError else Idle,
               g') /\
       Queue.items (gui_queue g')
       = Queue.items (gui_queue (globals s))
         ++ map (fun wd => Ev "word" (fst wd) (snd wd))
                (Engine.words (driver txt)) /\
       Engine.listeners "started-word" (engine_worker g')
       = if Engine.raises (driver txt) then [on_word_cb] else []) /\
  (forall w txt tok,
     Engine.utterances (engine_worker w) = [] ->
     (0 < Queue.unfinished_tasks (tts_queue w))%nat ->
     Engine.raises (driver txt) = false ->
     exists w',
       tts_worker_step driver (Speaking txt (Some tok)) w = Some (Idle, w') /\
       (forall e,
          Engine.disconnect tok (engine_worker w) = inl e ->
          engine_worker w' = engine_worker w)).
Proof.
  intros Hexec.
  destruct (invariant_exec tr s Hexec) as [Hin Hun _ _ Heng Hsp _ _ _ _].
  destruct s as [g pc m]. cbn [globals worker main] in *.
  split; [|split; [|split]].
  - intros ->. simpl in Heng. apply listeners_none. tauto.
  - intros t rest -> Hq Hsync.
    assert (Hx : ttype t = "speak").
    { rewrite Hin, Hq in Hsp. apply Forall_app in Hsp as [_ Hsp].
      by apply Forall_cons in Hsp as [Hsp _]. }
    rewrite (step_idle_speak driver g t rest Hq Hx), Hsync.
    eexists. split; [reflexivity|]. simpl in Heng. destruct Heng as [_ Hc].
    unfold connected, Engine.connect, Engine.listeners.
    destruct g as [tq gq [cn us] ta lt ac rd]. simpl in *.
    rewrite Hc. simpl. by rewrite lookup_insert_eq.
  - intros txt tok ->. simpl in Heng, Hun. destruct Heng as (Hu & -> & Hc).
    assert (Hl : Engine.listeners "started-word" (engine_worker g) = [on_word_cb]).
    { unfold Engine.listeners. by rewrite Hc. }
    split; [done|].
    rewrite (step_speaking driver g txt _ Hu) by lia.
    assert (Hs : Queue.items (gui_queue (spoken driver txt g))
                 = Queue.items (gui_queue g)
                   ++ map (fun wd => Ev "word" (fst wd) (snd wd))
                          (Engine.words (driver txt))).
    { unfold spoken. rewrite Hl, word_events_one. by destruct g. }
    destruct (Engine.raises (driver txt)); eexists; (split; [reflexivity|]).
    + split; [done|]. rewrite <- Hl. unfold spoken. by destruct g.
    + split.
      * rewrite <- Hs. unfold disconnected.
        destruct (Engine.disconnect _ _); by destruct g.
      * unfold disconnected, Engine.disconnect, spoken.
        destruct g as [tq gq [cn us] ta lt ac rd]. simpl in *.
        rewrite Hc. simpl. unfold Engine.listeners. simpl.
        by rewrite lookup_delete_eq.
  - intros w txt tok. apply speaking_survives_disconnect.
Qed.

(** C7 (as amended: a thread ended by an exception is a fifth state).
    Every step of a reachable state either is a step of the main thread,
    which leaves the worker where it is, or follows one of the transitions
    the specification lists, or leads from Speaking to Crashed because the
    driver raised during synthesis.  Dequeuing the sentinel leads to
    Terminated.  From Terminated, and from Crashed, the worker has no step:
    it dequeues nothing and posts nothing any more. *)
Theorem C7_worker_transitions tr s l s' :
  exec boot tr s ->
  step s l s' ->
  (worker s' = worker s
   \/ spec_transition (phase_of (worker s)) (phase_of (worker s')) = true
   \/ (exists txt cid,
         worker s = Speaking txt cid /\
         Engine.raises (driver txt) = true /\
         worker s' = Crashed EngineError)) /\
  (l = Dequeue None -> worker s' = Terminated) /\
  (worker s = Terminated \/ (exists e, worker s = Crashed e) ->
   tts_worker_step driver (worker s) (globals s) = None /\
   worker s' = worker s /\
   dequeued (tr ++ [l]) = dequeued tr /\
   emitted (tr ++ [l]) = emitted tr).
Proof.
  intros Hexec Hstep.
  destruct (invariant_exec tr s Hexec) as [Hin Hun _ _ Heng Hsp _ _ _ _].
  destruct Hstep as [g g' pc' m x rest Hm Hq Hstep
                    |g g' txt cid pc' m evs Hm Hstep Hevs
                    |g g' pc ts Hrun Hts
                    |g g' pc txt sy ts Hrun Hts
                    |g g' pc d rest r evs Hac Hrun Hevs
                    |g pc txt
                    |g g' pc Hrun
                    |g g' pc Hjoin Hrun]; cbn [globals worker main] in *.
  - assert (Hx : is_speak x).
    { rewrite Hin, Hq in Hsp. apply Forall_app in Hsp as [_ Hsp].
      by apply Forall_cons in Hsp as [Hsp _]. }
    split; [|split].
    + right. left. destruct x as [t|].
      * rewrite (step_idle_speak driver g t rest Hq Hx) in Hstep.
        destruct (sync t); by injection Hstep as <- _.
      * rewrite (step_idle_sentinel driver g rest Hq) in Hstep
          by (rewrite Hun, Hq; simpl; lia).
        by injection Hstep as <- _.
    + intros [= ->].
      rewrite (step_idle_sentinel driver g rest Hq) in Hstep
        by (rewrite Hun, Hq; simpl; lia).
      by injection Hstep as <- _.
    + intros [H|[e H]]; discriminate H.
  - assert (Hu : Engine.utterances (engine_worker g) = []).
    { destruct cid; simpl in Heng; tauto. }
    simpl in Hun. rewrite (step_speaking driver g txt cid Hu) in Hstep by lia.
    split; [|split].
    + destruct (Engine.raises (driver txt)) eqn:Hr; injection Hstep as <- _.
      * right. right. by exists txt, cid.
      * right. left. by destruct cid.
    + intros H. discriminate H.
    + intros [H|[e H]]; discriminate H.
  - split; [by left|]. split; [intros H; discriminate H|].
    intros H. rewrite dequeued_snoc, emitted_snoc, !app_nil_r.
    split; [|done]. by destruct H as [->|[e ->]].
  - split; [by left|]. split; [intros H; discriminate H|].
    intros H. rewrite dequeued_snoc, emitted_snoc, !app_nil_r.
    split; [|done]. by destruct H as [->|[e ->]].
  - split; [by left|]. split; [intros H; discriminate H|].
    intros H. rewrite dequeued_snoc, emitted_snoc, !app_nil_r.
    split; [|done]. by destruct H as [->|[e ->]].
  - split; [by left|]. split; [intros H; discriminate H|].
    intros H. rewrite dequeued_snoc, emitted_snoc, !app_nil_r.
    split; [|done]. by destruct H as [->|[e ->]].
  - split; [by left|]. split; [intros H; discriminate H|].
    intros H. rewrite dequeued_snoc, emitted_snoc, !app_nil_r.
    split; [|done]. by destruct H as [->|[e ->]].
  - split; [by left|]. split; [intros H; discriminate H|].
    intros H. rewrite dequeued_snoc, emitted_snoc, !app_nil_r.
    split; [|done]. by destruct H as [->|[e ->]].
Qed.

Lemma exec_cons s l s1 tr s2 :
  step s l s1 -> exec s1 tr s2 -> exec s (l :: tr) s2.
Proof.
  intros Hstep Hexec. induction Hexec as [s1|s1 tr s2 l' s3 _ IH Hstep'].
  - apply (exec_snoc driver s [] s l s1); [constructor|done].
  - apply (exec_snoc driver s (l :: tr) s2 l' s3); [by apply IH|done].
Defined.

End WithDriver.

(** *** Concrete runs *)

Definition hi : Py.str := Py.of_string "Hi".

(** A driver that reports each text as one word and never raises, and one
    that raises as soon as it is asked to speak. *)
Definition plain_driver (s : Py.str) : Engine.synthesis :=
  Engine.mk_synthesis [(0, Z.of_nat (length s))] false.
Definition failing_driver (s : Py.str) : Engine.synthesis :=
  Engine.mk_synthesis [] true.

Definition after_enqueue (txt : Py.str) (sy : bool) (s : t) : t :=
  mk (snd (enqueue_speak txt sy (globals s))) (worker s) (main s).

Definition after_worker_step (d : Py.str -> Engine.synthesis) (s : t) : t :=
  match tts_worker_step d (worker s) (globals s) with
  | Some (pc, g) => mk g pc (main s)
  | None => s
  end.

Definition after_close (s : t) : t :=
  mk (snd (on_closing_put (globals s))) (worker s) Joining.

Definition after_join (s : t) : t :=
  mk (snd (on_closing_destroy (globals s))) (worker s) Closed.

(** [enqueue_speak("Hi", sy)], then the worker dequeues the task. *)
Definition dequeued_hi (d : Py.str -> Engine.synthesis) (sy : bool) : t :=
  after_worker_step d (after_enqueue hi sy boot).

Lemma exec_dequeued_hi d sy :
  exec d boot [Submit [Some (mk_task "speak" hi sy)];
               Dequeue (Some (mk_task "speak" hi sy))]
       (dequeued_hi d sy).
Proof.
  eapply exec_cons.
  { eapply step_enqueue with (s := hi) (sy := sy); reflexivity. }
  eapply exec_cons; [|apply exec_nil].
  destruct sy; (eapply step_dequeue; [discriminate|reflexivity|reflexivity]).
Defined.

Lemma step_speak_hi_plain sy :
  step plain_driver (dequeued_hi plain_driver sy)
       (Emit (if sy then [Ev "word" 0 2] else []))
       (after_worker_step plain_driver (dequeued_hi plain_driver sy)).
Proof.
  destruct sy; (eapply step_speak; [discriminate|reflexivity|reflexivity]).
Defined.

Lemma step_speak_hi_failing sy :
  step failing_driver (dequeued_hi failing_driver sy)
       (Emit [])
       (after_worker_step failing_driver (dequeued_hi failing_driver sy)).
Proof.
  destruct sy; (eapply step_speak; [discriminate|reflexivity|reflexivity]).
Defined.

(** A whole session: one read is requested, the window is closed at once,
    the worker speaks the text, finds the sentinel, and [join] returns.
    The states it goes through, one after the other: *)
Definition session_requested : t :=
  Eval vm_compute in after_enqueue hi true boot.
Definition session_closing : t :=
  Eval vm_compute in after_close session_requested.
Definition session_speaking : t :=
  Eval vm_compute in after_worker_step plain_driver session_closing.
Definition session_spoken : t :=
  Eval vm_compute in after_worker_step plain_driver session_speaking.
Definition session_drained : t :=
  Eval vm_compute in after_worker_step plain_driver session_spoken.
Definition closed_session : t :=
  Eval vm_compute in after_join session_drained.

Definition closed_session_trace : list label :=
  [Submit [Some (mk_task "speak" hi true)]; Submit [None];
   Dequeue (Some (mk_task "speak" hi true)); Emit [Ev "word" 0 2];
   Dequeue None; Tau].

Lemma exec_closed_session :
  exec plain_driver boot closed_session_trace closed_session.
Proof.
  apply (exec_cons plain_driver boot _ session_requested).
  { eapply step_enqueue with (s := hi) (sy := true);
      vm_compute; reflexivity. }
  apply (exec_cons plain_driver _ _ session_closing).
  { eapply step_close. vm_compute; reflexivity. }
  apply (exec_cons plain_driver _ _ session_speaking).
  { eapply step_dequeue;
      [discriminate|vm_compute; reflexivity|vm_compute; reflexivity]. }
  apply (exec_cons plain_driver _ _ session_spoken).
  { eapply step_speak;
      [discriminate|vm_compute; reflexivity|vm_compute; reflexivity]. }
  apply (exec_cons plain_driver _ _ session_drained).
  { eapply step_dequeue;
      [discriminate|vm_compute; reflexivity|vm_compute; reflexivity]. }
  apply (exec_cons plain_driver _ _ closed_session); [|apply exec_nil].
  eapply step_join; vm_compute; reflexivity.
Defined.

Lemma C3_speak_without_sync_posts_no_event_witness :
  let s := dequeued_hi plain_driver false in
  worker s = Speaking hi None /\
  forall evs s', step plain_driver s (Emit evs) s' -> evs = [].
Proof.
  cbv zeta. split; [reflexivity|].
  destruct (C3_speak_without_sync_posts_no_event plain_driver _ _
              (exec_dequeued_hi plain_driver false)) as [_ H].
  destruct (H hi) as (_ & _ & Hevs); [reflexivity|exact Hevs].
Defined.

Lemma C4_callback_connected_around_synthesis_witness :
  let s := dequeued_hi plain_driver true in
  worker s = Speaking hi (Some started_word_token) /\
  exists g',
    tts_worker_step plain_driver (Speaking hi (Some started_word_token))
                    (globals s) = Some (Idle, g') /\
    Queue.items (gui_queue g') = [Ev "word" 0 2] /\
    Engine.listeners "started-word" (engine_worker g') = [].
Proof.
  cbv zeta. split; [reflexivity|].
  destruct (C4_callback_connected_around_synthesis plain_driver _ _
              (exec_dequeued_hi plain_driver true)) as (_ & _ & H & _).
  destruct (H hi started_word_token) as (_ & g' & H1 & H2 & H3);
    [reflexivity|].
  exists g'. split; [exact H1|]. split; [exact H2|exact H3].
Defined.

(** C4 (counterexample to the claim as stated).  The driver raises while
    "Hi" is spoken with the callback connected: the exception leaves
    [tts_worker], [disconnect] is never called, and the callback is still
    connected when the thread ends. *)
Lemma C4_callback_stays_connected_when_synthesis_raises :
  exists tr s,
    exec failing_driver boot tr s /\
    dequeued tr = [Some (mk_task "speak" hi true)] /\
    worker s = Crashed EngineError /\
    Engine.listeners "started-word" (engine_worker (globals s)) = [on_word_cb].
Proof.
  eexists _, _. split.
  { eapply exec_snoc; [apply (exec_dequeued_hi failing_driver true)|].
    apply (step_speak_hi_failing true). }
  split; [reflexivity|]. split; reflexivity.
Qed.

Lemma C6_close_handler_returns_after_drain_witness :
  main closed_session = Closed /\
  worker closed_session = Terminated /\
  Queue.items (tts_queue (globals closed_session)) = [] /\
  dequeued closed_session_trace = submitted closed_session_trace.
Proof.
  destruct (C6_close_handler_returns_after_drain plain_driver _ _
              exec_closed_session) as (H1 & H2 & H3 & _ & H5 & _).
  - left. reflexivity.
  - split; [exact H1|]. split; [exact H2|]. split; [exact H3|exact H5].
Defined.

Lemma C7_worker_transitions_witness :
  let s := dequeued_hi plain_driver true in
  let s' := after_worker_step plain_driver s in
  spec_transition (phase_of (worker s)) (phase_of (worker s')) = true /\
  worker s' = Idle.
Proof.
  cbv zeta.
  destruct (C7_worker_transitions plain_driver _ _ _ _
              (exec_dequeued_hi plain_driver true) (step_speak_hi_plain true))
    as [[H|[H|H]] _].
  - discriminate H.
  - split; [exact H|reflexivity].
  - destruct H as (txt & cid & _ & _ & H). discriminate H.
Defined.

(** C7 (counterexample to the claim as stated).  The driver raises while
    the worker speaks "Hi": the step leads from Speaking(with-events) to a
    thread ended by the exception, which is none of the listed
    transitions. *)
Lemma C7_speaking_can_end_in_crash :
  exists tr s l s',
    exec failing_driver boot tr s /\
    step failing_driver s l s' /\
    phase_of (worker s) = P_Speaking_with_events /\
    worker s' = Crashed EngineError /\
    spec_transition (phase_of (worker s)) (phase_of (worker s')) = false.
Proof.
  eexists _, _, _, _. split; [apply (exec_dequeued_hi failing_driver true)|].
  split; [apply (step_speak_hi_failing true)|].
  split; [reflexivity|]. split; reflexivity.
Qed.

Lemma C9_both_queues_are_fifo_witness :
  submitted closed_session_trace
  = dequeued closed_session_trace
    ++ Queue.items (tts_queue (globals closed_session)) /\
  emitted closed_session_trace
  = handled closed_session_trace
    ++ Queue.items (gui_queue (globals closed_session)).
Proof.
  destruct (C9_both_queues_are_fifo plain_driver _ _ exec_closed_session)
    as (H1 & H2 & _).
  split; [exact H1|exact H2].
Defined.

End Interleaving.

(** ** Which thread touches what *)

Module Frames.

(** The globals of the presentation side. *)
Definition gui_side (w : World)
    : Tk.Text * option Py.str * list nat * bool :=
  (text_area w, latest_text_for_tts w, after_calls w, root_destroyed w).

(** A computation keeps a part of the globals when that part is the same
    after it as before, however the computation ends. *)
Definition keeps {A B} (proj : World -> B) (m : M A) : Prop :=
  forall w, proj (snd (m w)) = proj w.

Section Keeps.
Context {B : Type} (proj : World -> B).

Lemma keeps_ret {A} (x : A) : keeps proj (mret x).
Proof. by intros w. Qed.

Lemma keeps_raise {A} (e : exn) : keeps proj (raise e : M A).
Proof. by intros w. Qed.

Lemma keeps_gets {A} (f : World -> A) : keeps proj (gets f).
Proof. by intros w. Qed.

Lemma keeps_modify (f : World -> World) :
  (forall w, proj (f w) = proj w) -> keeps proj (modify f).
Proof. intros H w. apply H. Qed.

Lemma keeps_bind {A C} (m : M A) (f : A -> M C) :
  keeps proj m -> (forall x, keeps proj (f x)) -> keeps proj (m ≫= f).
Proof.
  intros Hm Hf w. unfold mbind, M_bind. specialize (Hm w).
  destruct (m w) as [[e|x] w1]; simpl in *; [done|].
  by rewrite Hf.
Qed.

Lemma keeps_try_except {A} (body : M A) (handler : exn -> M A) :
  keeps proj body -> (forall e, keeps proj (handler e)) ->
  keeps proj (try_except body handler).
Proof.
  intros Hb Hh w. unfold try_except. specialize (Hb w).
  destruct (body w) as [[e|x] w1]; simpl in *; [|done].
  by rewrite Hh.
Qed.

Lemma keeps_lift_result {A C} (p : World -> A) (r : A -> exn + C)
    (upd : C -> World -> World) :
  (forall c w, proj (upd c w) = proj w) -> keeps proj (lift_result p r upd).
Proof.
  intros H w. unfold lift_result. destruct (r (p w)); simpl; [done|apply H].
Qed.

Lemma keeps_for_each {A} (l : list A) (body : A -> M unit) :
  (forall x, keeps proj (body x)) -> keeps proj (for_each l body).
Proof.
  intros H. induction l as [|x l IH]; simpl.
  - apply keeps_ret.
  - apply keeps_bind; [apply H|by intros _].
Qed.

End Keeps.

(** *** The worker thread never touches the presentation side *)

Section WorkerSide.
Variable driver : Py.str -> Engine.synthesis.

Lemma call_keeps_gui c name l n : keeps gui_side (call c name l n).
Proof. destruct c. apply keeps_modify. by intros []. Qed.

Lemma runAndWait_keeps_gui : keeps gui_side (runAndWait driver).
Proof.
  apply keeps_bind; [apply keeps_gets|]. intros us.
  apply keeps_for_each. intros s.
  apply keeps_bind; [apply keeps_modify; by intros []|]. intros _.
  apply keeps_bind.
  - apply keeps_for_each. intros wd.
    apply keeps_bind; [apply keeps_gets|]. intros cbs.
    apply keeps_for_each. intros c.
    apply keeps_try_except; [apply call_keeps_gui|intros e; apply keeps_ret].
  - intros _. destruct (Engine.raises (driver s));
      [apply keeps_raise|apply keeps_ret].
Qed.

Lemma tts_task_done_keeps_gui : keeps gui_side tts_task_done.
Proof. apply keeps_lift_result. by intros c []. Qed.

Lemma tts_worker_dequeue_keeps_gui : keeps gui_side tts_worker_dequeue.
Proof.
  apply keeps_bind.
  { intros w. unfold tts_get.
    destruct (Queue.get_nowait (tts_queue w)) as [e|[x q]]; [done|].
    by destruct w. }
  intros [t|].
  - destruct (String.eqb (ttype t) "speak").
    + destruct (sync t); [|apply keeps_ret].
      apply keeps_bind; [|intros cid; apply keeps_ret].
      intros w. unfold engine_connect.
      destruct (Engine.connect _ _ _). by destruct w.
    + apply keeps_bind; [apply tts_task_done_keeps_gui|].
      intros _. apply keeps_ret.
  - apply keeps_bind; [apply tts_task_done_keeps_gui|].
    intros _. apply keeps_ret.
Qed.

Lemma tts_worker_speak_keeps_gui s cid :
  keeps gui_side (tts_worker_speak driver s cid).
Proof.
  apply keeps_bind; [apply keeps_modify; by intros []|]. intros _.
  apply keeps_bind; [apply runAndWait_keeps_gui|]. intros _.
  apply keeps_bind.
  { destruct cid as [tok|]; [|apply keeps_ret].
    apply keeps_try_except; [|intros e; apply keeps_ret].
    apply keeps_lift_result. by intros c []. }
  intros _. apply keeps_bind; [apply tts_task_done_keeps_gui|].
  intros _. apply keeps_ret.
Qed.

Lemma tts_worker_step_keeps_gui pc w pc' w' :
  tts_worker_step driver pc w = Some (pc', w') -> gui_side w' = gui_side w.
Proof.
  unfold tts_worker_step. destruct pc as [|s cid| |e]; try done.
  - destruct (Queue.items (tts_queue w)); [done|].
    pose proof (tts_worker_dequeue_keeps_gui w) as H.
    destruct (tts_worker_dequeue w) as [[e|pc1] w1]; simpl in H;
      by intros [= _ <-].
  - pose proof (tts_worker_speak_keeps_gui s cid w) as H.
    destruct (tts_worker_speak driver s cid w) as [[e|pc1] w1]; simpl in H;
      by intros [= _ <-].
Qed.

(** X1.  However long the worker thread runs, from any position, on any
    globals and with any driver (also one that raises), it leaves the text
    widget, [latest_text_for_tts], the pending polls and the window as they
    were: all it changes is [tts_queue], [gui_queue] and its own engine. *)
Theorem worker_never_touches_the_gui fuel pc w :
  gui_side (snd (tts_worker driver fuel pc w)) = gui_side w.
Proof.
  revert pc w; induction fuel as [|fuel IH]; intros pc w; simpl; [done|].
  destruct (tts_worker_step driver pc w) as [[pc' w']|] eqn:Hstep; [|done].
  rewrite IH. by eapply tts_worker_step_keeps_gui.
Qed.

End WorkerSide.

(** *** The main thread never touches the engine *)

Section PollKeeps.
Context {B : Type} (proj : World -> B).
Hypothesis proj_gui_queue : forall q w, proj (set_gui_queue q w) = proj w.
Hypothesis proj_after_calls : forall l w, proj (set_after_calls l w) = proj w.
Hypothesis proj_tag_remove : forall i1 i2 w,
  proj (set_text_area (Tk.tag_remove HIGHLIGHT_TAG i1 i2 (text_area w)) w) = proj w.
Hypothesis proj_tag_add : forall i1 i2 w,
  proj (set_text_area (Tk.tag_add HIGHLIGHT_TAG i1 i2 (text_area w)) w) = proj w.
Hypothesis proj_tag_config : forall w,
  proj (set_text_area (Tk.tag_config HIGHLIGHT_TAG HIGHLIGHT_BG (text_area w)) w)
  = proj w.
Hypothesis proj_see : forall i w,
  proj (set_text_area (Tk.see i (text_area w)) w) = proj w.

Lemma handle_gui_event_keeps ev : keeps proj (handle_gui_event ev).
Proof.
  destruct ev as [|et l n]; [apply keeps_ret|].
  apply keeps_bind.
  - destruct (String.eqb et "word"); [|apply keeps_ret].
    apply keeps_try_except; [|intros e; apply keeps_ret].
    unfold highlight_word. destruct (l <? 0); [apply keeps_ret|].
    apply keeps_bind; [apply keeps_modify; apply proj_tag_remove|]. intros _.
    apply keeps_bind; [apply keeps_modify; apply proj_tag_add|]. intros _.
    apply keeps_bind; [apply keeps_modify; apply proj_tag_config|]. intros _.
    apply keeps_bind; [apply keeps_modify; apply proj_see|]. intros _.
    apply keeps_ret.
  - intros [|]; [|apply keeps_ret].
    apply keeps_bind; [|intros _; apply keeps_ret].
    apply keeps_lift_result. intros c w. apply proj_gui_queue.
Qed.

Lemma poll_loop_keeps fuel : forall w e w',
  poll_loop fuel w = Some (e, w') -> proj w' = proj w.
Proof.
  induction fuel as [|fuel IH]; intros w e w'; simpl; [done|].
  unfold gui_get_nowait.
  destruct (Queue.get_nowait (gui_queue w)) as [e0|[ev q]].
  - by intros [= _ <-].
  - pose proof (handle_gui_event_keeps ev (set_gui_queue q w)) as H.
    destruct (handle_gui_event ev (set_gui_queue q w)) as [[e1|fl] w2];
      simpl in H.
    + intros [= _ <-]. by rewrite H.
    + intros Hloop. apply IH in Hloop. by rewrite Hloop, H.
Qed.

Lemma process_gui_events_keeps fuel w :
  match process_gui_events fuel w with
  | Some (_, w') => proj w' = proj w
  | None => True
  end.
Proof.
  unfold process_gui_events.
  destruct (poll_loop fuel w) as [[e w']|] eqn:Hloop; [|done].
  apply poll_loop_keeps in Hloop.
  destruct e; try done. by rewrite proj_after_calls.
Qed.

End PollKeeps.

(** The globals the polling loop has no business with. *)
Definition not_for_polling (w : World)
    : Queue.t (option task) * Engine.t * option Py.str * bool :=
  (tts_queue w, engine_worker w, latest_text_for_tts w, root_destroyed w).

(** X2.  The main thread never touches the worker's engine: neither
    [start_reading], [enqueue_speak] nor the two halves of [on_closing]
    change it, and a poll, whatever it finds in [gui_queue] and however it
    ends, changes neither the engine nor [tts_queue],
    [latest_text_for_tts] or the window. *)
Theorem main_thread_never_touches_the_engine (w : World) :
  engine_worker (snd (start_reading w)) = engine_worker w /\
  (forall s sy, engine_worker (snd (enqueue_speak s sy w)) = engine_worker w) /\
  engine_worker (snd (on_closing_put w)) = engine_worker w /\
  engine_worker (snd (on_closing_destroy w)) = engine_worker w /\
  (forall fuel,
     match process_gui_events fuel w with
     | Some (_, w') => not_for_polling w' = not_for_polling w
     | None => True
     end).
Proof.
  split.
  { rewrite Reading.start_reading_run. cbn [snd].
    destruct (forallb Py.isspace _); by destruct w. }
  split; [intros s sy; by destruct w|].
  split; [by destruct w|]. split; [by destruct w|].
  intros fuel. apply process_gui_events_keeps; by intros; destruct w0.
Qed.

Lemma has_tag_other_remove t t' c :
  t <> t' ->
  Tk.has_tag t (Tk.mk_cell (Tk.glyph c) (Tk.tags c ∖ {[t']})) = Tk.has_tag t c.
Proof.
  intros Hne. unfold Tk.has_tag. simpl. apply bool_decide_ext.
  rewrite elem_of_difference, elem_of_singleton. tauto.
Qed.

Lemma has_tag_other_add t t' c :
  t <> t' ->
  Tk.has_tag t (Tk.mk_cell (Tk.glyph c) ({[t']} ∪ Tk.tags c)) = Tk.has_tag t c.
Proof.
  intros Hne. unfold Tk.has_tag. simpl. apply bool_decide_ext.
  rewrite elem_of_union, elem_of_singleton. tauto.
Qed.

Lemma retag_flags t f lo hi cs :
  (forall c, Tk.has_tag t (Tk.mk_cell (Tk.glyph c) (f (Tk.tags c)))
             = Tk.has_tag t c) ->
  map (Tk.has_tag t) (Tk.retag f lo hi cs) = map (Tk.has_tag t) cs.
Proof.
  intros Hf. revert lo hi; induction cs as [|c cs IH]; intros lo hi; simpl;
    [done|].
  rewrite IH. f_equal. destruct lo, hi; first [done|apply Hf].
Qed.

(** The text of the widget and the characters that carry the tag [t]. *)
Definition text_and_tag (t : string) (w : World) : Py.str * list bool :=
  (Tk.get_all (text_area w), map (Tk.has_tag t) (Tk.cells (text_area w))).

(** X7.  A poll never edits the text and never disturbs another tag: for
    every tag other than "highlight" (the selection, say) the tagged spans
    are after the poll what they were before, whatever events the queue
    holds and however the poll ends. *)
Theorem poll_keeps_text_and_other_tags (w : World) (fuel : nat) (t : string) :
  t <> HIGHLIGHT_TAG ->
  match process_gui_events fuel w with
  | Some (_, w') =>
      Tk.get_all (text_area w') = Tk.get_all (text_area w) /\
      Tk.tag_ranges t (text_area w') = Tk.tag_ranges t (text_area w)
  | None => True
  end.
Proof.
  intros Hne.
  pose proof (process_gui_events_keeps (text_and_tag t)) as H.
  specialize (H (fun q w0 => ltac:(by destruct w0))
                (fun l w0 => ltac:(by destruct w0))).
  assert (Hrem : forall i1 i2 w0,
    text_and_tag t (set_text_area
      (Tk.tag_remove HIGHLIGHT_TAG i1 i2 (text_area w0)) w0) = text_and_tag t w0).
  { intros i1 i2 [tq gq e ta lt ac rd]. unfold text_and_tag, Tk.get_all. simpl.
    rewrite TkFacts.retag_glyph, retag_flags; [done|].
    intros c. by apply has_tag_other_remove. }
  assert (Hadd : forall i1 i2 w0,
    text_and_tag t (set_text_area
      (Tk.tag_add HIGHLIGHT_TAG i1 i2 (text_area w0)) w0) = text_and_tag t w0).
  { intros i1 i2 [tq gq e ta lt ac rd]. unfold text_and_tag, Tk.get_all. simpl.
    rewrite TkFacts.retag_glyph, retag_flags; [done|].
    intros c. by apply has_tag_other_add. }
  specialize (H Hrem Hadd (fun w0 => ltac:(by destruct w0))
                (fun i w0 => ltac:(by destruct w0)) fuel w).
  destruct (process_gui_events fuel w) as [[r w']|]; [|done].
  unfold text_and_tag in H. injection H as Hg Hf.
  split; [done|]. unfold Tk.tag_ranges. by rewrite Hf.
Qed.

(** "Hello world" with "llo w" selected and an event waiting. *)
Definition selected_world : World :=
  set_gui_queue (Queue.put (Ev "word" 0 5) Queue.new)
    (set_text_area
       (Tk.tag_add "sel" (Tk.Idx_plus_chars Tk.Idx_1_0 2)
                   (Tk.Idx_plus_chars Tk.Idx_1_0 7)
                   (Tk.of_str (Py.of_string "Hello world")))
       (mk_world Queue.new Queue.new Engine.init (Tk.of_str []) None
                 [30%nat] false)).

Lemma poll_keeps_text_and_other_tags_witness :
  match process_gui_events 2 selected_world with
  | Some (_, w') =>
      Tk.get_all (text_area w') = Tk.get_all (text_area selected_world) /\
      Tk.tag_ranges "sel" (text_area w')
      = Tk.tag_ranges "sel" (text_area selected_world)
  | None => True
  end.
Proof.
  apply (poll_keeps_text_and_other_tags selected_world 2 "sel").
  discriminate.
Defined.

End Frames.

(** ** The worker thread on a whole queue *)

Module WorkerRun.
Import Worker.

(** Whether the worker speaks the task: its type is 'speak'. *)
Definition speaks (t : task) : bool := String.eqb (ttype t) "speak".

(** The engine between two reads: nothing queued, no callback connected. *)
Definition quiet (e : Engine.t) : Prop :=
  Engine.utterances e = [] /\ Engine.connects e !! "started-word" = None.

Section WithDriver.
Variable driver : Py.str -> Engine.synthesis.

(** The events one task makes the worker post. *)
Definition events_of (t : task) : list gui_event :=
  if speaks t && sync t
  then map (fun wd => Ev "word" (fst wd) (snd wd)) (Engine.words (driver (text t)))
  else [].

(** The globals once a task has been taken, handled and marked done. *)
Definition task_handled (t : task) (rest : list (option task)) (w : World)
    : World :=
  set_tts_queue
    (Queue.mk rest (pred (Queue.unfinished_tasks (tts_queue w))))
    (set_gui_queue (put_all (events_of t) (gui_queue w)) w).

Lemma tts_worker_ended fuel w : tts_worker driver fuel Terminated w = (Terminated, w).
Proof. by destruct fuel. Qed.

Lemma word_events_on_word wds :
  word_events [on_word_cb] wds = map (fun wd => Ev "word" (fst wd) (snd wd)) wds.
Proof. induction wds as [|wd wds IH]; simpl; [done|]. by rewrite <- IH. Qed.

(** One task, from [get] to [task_done], when the driver does not raise. *)
Lemma tts_worker_one_task (t : task) rest (w : World) fuel :
  Queue.items (tts_queue w) = Some t :: rest ->
  (0 < Queue.unfinished_tasks (tts_queue w))%nat ->
  quiet (engine_worker w) ->
  (speaks t = true -> Engine.raises (driver (text t)) = false) ->
  exists fuel', (fuel <= fuel')%nat /\
    tts_worker driver (S (S fuel)) Idle w
    = tts_worker driver fuel' Idle (task_handled t rest w).
Proof.
  intros Hq Hu [Hus Hcn] Hr. unfold task_handled.
  destruct (speaks t) eqn:Hsp.
  - assert (Hty : ttype t = "speak") by (by apply String.eqb_eq).
    exists fuel. split; [lia|].
    cbn [tts_worker]. rewrite (step_idle_speak driver w t rest Hq Hty).
    specialize (Hr eq_refl).
    destruct (sync t) eqn:Hsy.
    + rewrite step_speaking; [|by destruct w|by destruct w]. rewrite Hr.
      f_equal.
      destruct w as [[ti tu] gq [cn us] ta lt ac rd]. simpl in *. subst us.
      unfold after_task_done, disconnected, spoken, connected, after_get,
        Engine.disconnect, Engine.connect, Engine.listeners, events_of. simpl.
      rewrite Hsp, Hsy, Hcn. simpl. rewrite !lookup_insert_eq. simpl.
      rewrite word_events_on_word. by rewrite delete_insert_id.
    + rewrite step_speaking; [|by destruct w|by destruct w]. rewrite Hr.
      f_equal.
      destruct w as [[ti tu] gq [cn us] ta lt ac rd]. simpl in *. subst us.
      unfold after_task_done, disconnected, spoken, after_get,
        Engine.listeners, events_of. simpl.
      rewrite Hsp, Hsy, Hcn. simpl. by rewrite word_events_no_listener.
  - exists (S fuel). split; [lia|].
    cbn [tts_worker]. rewrite (step_idle_other driver w t rest Hq Hsp Hu).
    simpl. f_equal.
    destruct w as [[ti tu] gq e ta lt ac rd].
    unfold after_task_done, after_get, events_of.
    rewrite Hsp. cbn [andb]. rewrite put_all_nil. reflexivity.
Qed.

(** X3.  The worker on a queue that holds the tasks [ts], then the
    sentinel, then anything: if the driver raises on none of the texts it
    has to speak, the thread, given enough steps, ends in [Terminated]; it
    has then posted the word events of the tasks with sync=True, task after
    task in queue order, and nothing for the others; it has marked the
    tasks and the sentinel done, has left what follows the sentinel in the
    queue, and its engine is as before. *)
Theorem worker_runs_queue_to_sentinel (ts : list task) :
  forall (rest : list (option task)) (w : World) (fuel : nat),
  Queue.items (tts_queue w) = map Some ts ++ None :: rest ->
  (length ts < Queue.unfinished_tasks (tts_queue w))%nat ->
  quiet (engine_worker w) ->
  Forall (fun t => speaks t = true -> Engine.raises (driver (text t)) = false) ts ->
  (2 * length ts < fuel)%nat ->
  tts_worker driver fuel Idle w
  = (Terminated,
     set_tts_queue
       (Queue.mk rest (Queue.unfinished_tasks (tts_queue w) - length ts - 1))
       (set_gui_queue (put_all (flat_map events_of ts) (gui_queue w)) w)).
Proof.
  induction ts as [|t ts IH]; intros rest w fuel Hq Hu Hquiet Hr Hfuel.
  - destruct fuel as [|fuel]; [lia|]. simpl in Hq.
    cbn [tts_worker]. rewrite (step_idle_sentinel driver w rest Hq) by lia.
    rewrite tts_worker_ended. f_equal.
    destruct w as [[ti tu] gq e ta lt ac rd].
    unfold after_task_done, after_get, set_tts_queue, set_gui_queue.
    simpl. rewrite put_all_nil. do 2 f_equal. lia.
  - simpl in Hq, Hu, Hfuel. apply Forall_cons in Hr as [Hr1 Hr].
    destruct fuel as [|[|fuel]]; [lia|lia|].
    destruct (tts_worker_one_task t (map Some ts ++ None :: rest) w fuel)
      as (fuel' & Hle & ->); [done|lia|done|done|].
    rewrite (IH rest (task_handled t _ w) fuel').
    + f_equal. destruct w as [[ti tu] gq e ta lt ac rd].
      unfold task_handled, set_tts_queue, set_gui_queue. simpl.
      rewrite put_all_app. do 2 f_equal. lia.
    + by destruct w.
    + destruct w as [[ti tu] gq e ta lt ac rd]. simpl in *. lia.
    + by destruct w.
    + done.
    + lia.
Qed.

End WithDriver.

(** Two reads, one of them without word events, then the sentinel. *)
Lemma worker_runs_queue_to_sentinel_witness :
  let driver := fun s : Py.str =>
    Engine.mk_synthesis [(0, 1); (2, Z.of_nat (length s) - 2)] false in
  let ts := [mk_task "speak" (Py.of_string "a bc") true;
             mk_task "speak" (Py.of_string "x") false] in
  let w := mk_world (Queue.mk (map Some ts ++ [None]) 3) Queue.new Engine.init
                    (Tk.of_str []) None [30%nat] false in
  fst (tts_worker driver 5 Idle w) = Terminated /\
  Queue.items (gui_queue (snd (tts_worker driver 5 Idle w)))
  = [Ev "word" 0 1; Ev "word" 2 2] /\
  tts_queue (snd (tts_worker driver 5 Idle w)) = Queue.new.
Proof.
  cbv zeta.
  rewrite (worker_runs_queue_to_sentinel _
             [mk_task "speak" (Py.of_string "a bc") true;
              mk_task "speak" (Py.of_string "x") false] []).
  - split; [reflexivity|]. split; reflexivity.
  - reflexivity.
  - simpl. lia.
  - split; reflexivity.
  - repeat constructor.
  - simpl. lia.
Defined.

End WorkerRun.

(** ** From the Read button to the highlight *)

Module ReadAloud.
Import Worker WorkerRun TkFacts Polling.

Lemma tts_worker_blocked driver fuel w :
  Queue.items (tts_queue w) = [] -> tts_worker driver fuel Idle w = (Idle, w).
Proof.
  intros Hq. destruct fuel as [|fuel]; cbn [tts_worker]; [done|].
  by rewrite (step_idle_blocked driver w Hq).
Qed.

Lemma slice_of_prefix (s ws : Py.str) (a b : Z) :
  0 <= a -> a <= b -> b <= Z.of_nat (length s) ->
  Py.slice (s ++ ws) a b = Py.slice s a b.
Proof.
  intros Ha Hab Hb.
  rewrite !Highlight.slice_in_bounds by (rewrite ?length_app; lia).
  rewrite drop_app_le by lia. rewrite take_app_le; [done|].
  rewrite length_drop. lia.
Qed.

(** X6.  Read and highlight, end to end.  The text widget shows a text
    that is not blank, both queues are empty and the engine is quiet.  The
    user presses Read, the worker handles the task, and the next poll
    handles the events.  If the driver reports the words [wds] and then the
    word (location, len), which lies within the snapshot, then the worker
    is idle again with nothing queued or unfinished, [latest_text_for_tts]
    holds the snapshot, and exactly one span is highlighted: that of the
    last word, whose characters in the widget are those the engine saw at
    these positions, snapshot[location:location+len]. *)
Theorem read_aloud_highlights_last_word driver (w : World)
    (wds : list (Z * Z)) (location len : Z) :
  let content := Py.rstrip (Tk.get_all (text_area w)) in
  forallb Py.isspace (Tk.get_all (text_area w)) = false ->
  tts_queue w = Queue.new -> gui_queue w = Queue.new ->
  quiet (engine_worker w) ->
  driver content = Engine.mk_synthesis (wds ++ [(location, len)]) false ->
  0 <= location -> 0 < len -> location + len <= Z.of_nat (length content) ->
  let spoken := tts_worker driver 2 Idle (snd (start_reading w)) in
  let span := (Z.to_nat location, Z.to_nat (location + len)) in
  fst spoken = Idle /\
  exists w',
    process_gui_events (S (S (length wds))) (snd spoken) = Some (inr tt, w') /\
    tts_queue w' = Queue.new /\
    Queue.items (gui_queue w') = [] /\
    latest_text_for_tts w' = Some content /\
    Tk.tag_ranges HIGHLIGHT_TAG (text_area w') = [span] /\
    Tk.span_text (text_area w') span
    = Py.slice content location (location + len).
Proof.
  intros content Hblank Htq Hgq Hquiet Hdrv Hloc Hlen Hin spoken span.
  subst spoken. rewrite Reading.start_reading_run, Hblank. cbn [snd].
  fold content.
  set (t := mk_task "speak" content true).
  set (w1 := Reading.reading_started content w).
  destruct (tts_worker_one_task driver t [] w1 0) as (fuel' & _ & ->).
  { subst w1. destruct w. simpl in *. by subst. }
  { subst w1. destruct w. simpl in *. subst. simpl. lia. }
  { subst w1. by destruct w. }
  { intros _. simpl. by rewrite Hdrv. }
  rewrite tts_worker_blocked by (by destruct w1).
  cbn [fst snd]. split; [done|].
  set (w2 := task_handled driver t [] w1).
  set (evs := map (fun wd : Z * Z => Ev "word" (fst wd) (snd wd)) wds).
  assert (Hq2 : gui_queue w2
                = Queue.mk (evs ++ [Ev "word" location len]) (length wds + 1)).
  { subst w2 w1 t evs. unfold task_handled, events_of, speaks. simpl.
    rewrite Hdrv. destruct w. simpl in *. subst. unfold put_all. simpl.
    by rewrite length_map, length_app, map_app. }
  assert (Hta2 : text_area w2 = text_area w) by (subst w2 w1; by destruct w).
  eexists. split.
  { apply process_gui_events_run.
    - rewrite Hq2. simpl. rewrite length_app. subst evs.
      rewrite length_map. simpl. lia.
    - unfold Queue.wf. rewrite Hq2. simpl. rewrite length_app. subst evs.
      rewrite length_map. simpl. lia. }
  rewrite Hq2. cbn [Queue.items Queue.unfinished_tasks].
  assert (Hw2 : tts_queue w2 = Queue.new /\ latest_text_for_tts w2 = Some content).
  { subst w2 w1. destruct w. simpl in *. by subst. }
  destruct Hw2 as [Htq2 Hlt2].
  destruct w2 as [tq2 gq2 e2 ta2 lt2 ac2 rd2].
  cbn [text_area tts_queue latest_text_for_tts gui_queue
       set_after_calls set_gui_queue set_text_area Queue.items] in *.
  subst ta2. split; [done|]. split; [done|]. split; [done|].
  rewrite apply_events_app. cbn [apply_events fold_left apply_event].
  destruct (Z.ltb_spec location 0) as [|_]; [lia|].
  cbn [String.eqb Ascii.eqb Bool.eqb andb negb].
  set (before := apply_events evs (text_area w)).
  destruct (Reading.rstrip_split (Tk.get_all (text_area w))) as (ws & Hsplit & _).
  fold content in Hsplit.
  assert (Hn : length (Tk.cells before) = length (Tk.get_all (text_area w))).
  { subst before. by rewrite Highlight.apply_events_length, get_all_length. }
  assert (Hlen' : (length content <= length (Tk.get_all (text_area w)))%nat).
  { pose proof (f_equal length Hsplit) as Hl. rewrite length_app in Hl. lia. }
  split.
  - rewrite highlight_ranges. cbv zeta. rewrite Hn.
    rewrite Highlight.span_lo_in_bounds, Highlight.span_hi_in_bounds by lia.
    subst span.
    destruct (Nat.ltb_spec (Z.to_nat location) (Z.to_nat (location + len)));
      [done|lia].
  - unfold Tk.span_text. subst span. cbn [fst snd].
    rewrite highlight_get_all. subst before. rewrite apply_events_get_all.
    rewrite <- Highlight.slice_in_bounds by lia.
    rewrite Hsplit. apply slice_of_prefix; lia.
Qed.

Lemma read_aloud_highlights_last_word_witness :
  let driver := fun _ : Py.str => Engine.mk_synthesis [(0, 5); (6, 5)] false in
  let w := Highlight.world_showing (Py.of_string "Hello world  ") in
  let spoken := tts_worker driver 2 Idle (snd (start_reading w)) in
  exists w',
    process_gui_events 3 (snd spoken) = Some (inr tt, w') /\
    latest_text_for_tts w' = Some (Py.of_string "Hello world") /\
    Tk.tag_ranges HIGHLIGHT_TAG (text_area w') = [(6%nat, 11%nat)] /\
    Tk.span_text (text_area w') (6%nat, 11%nat) = Py.of_string "world".
Proof.
  cbv zeta.
  destruct (read_aloud_highlights_last_word
              (fun _ : Py.str => Engine.mk_synthesis [(0, 5); (6, 5)] false)
              (Highlight.world_showing (Py.of_string "Hello world  "))
              [(0, 5)] 6 5)
    as (_ & w' & H1 & _ & _ & H4 & H5 & H6).
  - reflexivity.
  - reflexivity.
  - reflexivity.
  - split; reflexivity.
  - reflexivity.
  - lia.
  - lia.
  - vm_compute. discriminate.
  - exists w'. split; [exact H1|]. split; [exact H4|].
    split; [exact H5|exact H6].
Defined.

End ReadAloud.

(** ** Polling: skipped and repeated events *)

Module PollEdge.
Import TkFacts Polling.

(** The events the loop leaves through [continue], before it reaches
    [gui_queue.task_done()]: a false value, or a word event with a negative
    location. *)
Definition skips_task_done (ev : gui_event) : bool :=
  match ev with
  | EvFalsy => true
  | Ev etype location _ => String.eqb etype "word" && (location <? 0)
  end.

Lemma total_done_skipped evs :
  (total_done evs + length (filter (fun ev => skips_task_done ev = true) evs)
   = length evs)%nat.
Proof.
  induction evs as [|ev evs IH]; [done|]. cbn [total_done fold_right].
  fold (total_done evs). rewrite filter_cons.
  destruct ev as [|et l n]; simpl.
  - simpl in IH. lia.
  - destruct (String.eqb et "word" && (l <? 0)) eqn:Hs; simpl; simpl in IH.
    + destruct (decide (true = true)); [|done]. simpl. lia.
    + destruct (decide (false = true)); [done|]. lia.
Qed.

(** X9.  A poll marks done only the events it does not skip: an event left
    through [continue] stays counted as unfinished.  Starting from a queue
    on which nothing has been marked done yet, the poll returns with the
    queue empty and with as many unfinished tasks as there were skipped
    events, so that a [gui_queue.join()] could return afterwards only if
    no event was skipped. *)
Theorem poll_leaves_skipped_events_unfinished (w : World) (fuel : nat) :
  let evs := Queue.items (gui_queue w) in
  Queue.unfinished_tasks (gui_queue w) = length evs ->
  (length evs < fuel)%nat ->
  exists w',
    process_gui_events fuel w = Some (inr tt, w') /\
    Queue.items (gui_queue w') = [] /\
    Queue.unfinished_tasks (gui_queue w')
    = length (filter (fun ev => skips_task_done ev = true) evs) /\
    Queue.join_ready (gui_queue w') = forallb (fun ev => negb (skips_task_done ev)) evs.
Proof.
  intros evs Hu Hfuel. eexists. split.
  { apply process_gui_events_run; [done|]. unfold Queue.wf. fold evs. lia. }
  fold evs. pose proof (total_done_skipped evs) as Ht.
  destruct w as [tq gq e ta lt ac rd].
  cbn [gui_queue set_after_calls set_gui_queue set_text_area
       Queue.items Queue.unfinished_tasks] in *.
  split; [done|].
  assert (Hn : (Queue.unfinished_tasks gq - total_done evs
                = length (filter (fun ev => skips_task_done ev = true) evs))%nat)
    by lia.
  split; [exact Hn|].
  unfold Queue.join_ready. cbn [Queue.unfinished_tasks]. rewrite Hn.
  clear. induction evs as [|ev evs IH]; [done|].
  rewrite filter_cons. cbn [forallb].
  destruct (skips_task_done ev); simpl.
  - destruct (decide (true = true)); [|done]. done.
  - destruct (decide (false = true)); [done|]. exact IH.
Qed.

Lemma poll_leaves_skipped_events_unfinished_witness :
  let w := Highlight.with_events [Ev "word" (-1) 3; Ev "word" 0 2]
             (Highlight.world_showing (Py.of_string "Hi")) in
  exists w',
    process_gui_events 3 w = Some (inr tt, w') /\
    Queue.items (gui_queue w') = [] /\
    Queue.unfinished_tasks (gui_queue w') = 1%nat /\
    Queue.join_ready (gui_queue w') = false.
Proof.
  cbv zeta.
  destruct (poll_leaves_skipped_events_unfinished
              (Highlight.with_events [Ev "word" (-1) 3; Ev "word" 0 2]
                 (Highlight.world_showing (Py.of_string "Hi"))) 3)
    as (w' & H1 & H2 & H3 & H4).
  - reflexivity.
  - simpl. lia.
  - exists w'. split; [exact H1|]. split; [exact H2|].
    split; [exact H3|exact H4].
Defined.

(** Removing the tag everywhere undoes whatever [tag_add] did with it. *)
Lemma retag_remove_absorbs t lo hi cs : forall n,
  (length cs <= n)%nat ->
  Tk.retag (fun ts => ts ∖ {[t]}) 0 n
    (Tk.retag (fun ts => {[t]} ∪ ts) lo hi
       (Tk.retag (fun ts => ts ∖ {[t]}) 0 n cs))
  = Tk.retag (fun ts => ts ∖ {[t]}) 0 n cs.
Proof.
  revert lo hi; induction cs as [|c cs IH]; intros lo hi n Hn; [done|].
  simpl in Hn. destruct n as [|n]; [lia|].
  cbn [Tk.retag pred]. rewrite IH by lia. f_equal.
  destruct lo, hi; cbn [Tk.glyph Tk.tags]; f_equal;
    apply set_eq; intros x;
    rewrite ?elem_of_difference, ?elem_of_union, ?elem_of_difference,
            ?elem_of_singleton; tauto.
Qed.

(** Handling a word event a second time changes nothing. *)
Lemma highlight_twice (location len : Z) (ta : Tk.Text) :
  highlight location len (highlight location len ta) = highlight location len ta.
Proof.
  unfold highlight, Tk.see, Tk.tag_config, Tk.tag_add, Tk.tag_remove,
    Tk.set_cells.
  cbn [Tk.cells Tk.tag_background Tk.view].
  rewrite !retag_length. cbn [Tk.resolve].
  rewrite retag_remove_absorbs by lia.
  by rewrite insert_insert_eq.
Qed.

Lemma apply_event_twice ev ta :
  apply_event ev (apply_event ev ta) = apply_event ev ta.
Proof.
  destruct ev as [|et l n]; [done|]. simpl.
  destruct (String.eqb et "word" && negb (l <? 0)); [|done].
  apply highlight_twice.
Qed.

(** X8.  An event that arrives twice in a row, as it does when several
    callbacks are connected to the engine, leaves the display as a single
    one does: after a poll over a queue ending in [ev; ev] the text widget
    is in the state a poll over the same queue ending in one [ev] leaves. *)
Theorem repeated_event_changes_nothing (w : World)
    (evs : list gui_event) (ev : gui_event) (fuel : nat) :
  (length evs + 2 < fuel)%nat ->
  let once := Highlight.with_events (evs ++ [ev]) (set_gui_queue Queue.new w) in
  let twice := Highlight.with_events (evs ++ [ev; ev]) (set_gui_queue Queue.new w) in
  exists w1 w2,
    process_gui_events fuel once = Some (inr tt, w1) /\
    process_gui_events fuel twice = Some (inr tt, w2) /\
    text_area w2 = text_area w1.
Proof.
  intros Hfuel once twice.
  assert (Hitems : forall l,
    gui_queue (Highlight.with_events l (set_gui_queue Queue.new w))
    = Queue.mk l (length l)).
  { intros l. unfold Highlight.with_events.
    assert (H : forall q, fold_left (fun q ev0 => Queue.put ev0 q) l q
                          = Worker.put_all l q).
    { induction l as [|x l IH]; intros q; simpl.
      - by rewrite Worker.put_all_nil.
      - by rewrite IH, Worker.put_put_all. }
    rewrite H. by destruct w. }
  eexists _, _. split; [|split].
  - apply process_gui_events_run.
    + subst once. rewrite Hitems. simpl. rewrite length_app. simpl. lia.
    + subst once. unfold Queue.wf. rewrite Hitems. simpl. lia.
  - apply process_gui_events_run.
    + subst twice. rewrite Hitems. simpl. rewrite length_app. simpl. lia.
    + subst twice. unfold Queue.wf. rewrite Hitems. simpl. lia.
  - subst once twice. rewrite !Hitems. cbn [Queue.items].
    destruct w as [tq gq e ta lt ac rd]. unfold Highlight.with_events.
    cbn [text_area set_after_calls set_gui_queue set_text_area].
    rewrite !apply_events_app. cbn [apply_events fold_left].
    by rewrite apply_event_twice.
Qed.

Lemma repeated_event_changes_nothing_witness :
  let w := Highlight.world_showing (Py.of_string "Hello world") in
  exists w1 w2,
    process_gui_events 4
      (Highlight.with_events ([Ev "word" 0 5] ++ [Ev "word" 6 5])
         (set_gui_queue Queue.new w)) = Some (inr tt, w1) /\
    process_gui_events 4
      (Highlight.with_events ([Ev "word" 0 5] ++ [Ev "word" 6 5; Ev "word" 6 5])
         (set_gui_queue Queue.new w)) = Some (inr tt, w2) /\
    text_area w2 = text_area w1.
Proof.
  cbv zeta.
  apply (repeated_event_changes_nothing
           (Highlight.world_showing (Py.of_string "Hello world"))
           [Ev "word" 0 5] (Ev "word" 6 5) 4).
  simpl. lia.
Defined.

End PollEdge.

(** ** Closing the window, and the polling timer *)

Module Shutdown.
Import Worker System Interleaving.

Section WithDriver.
Variable driver : Py.str -> Engine.synthesis.

Local Abbreviation step := (System.step driver).
Local Abbreviation exec := (System.exec driver).

(** The invariant also holds along an execution that starts in a state
    where it holds. *)
Lemma invariant_exec_from tr s tr' s' :
  invariant tr s -> exec s tr' s' -> invariant (tr ++ tr') s'.
Proof.
  intros Hinv Hexec. induction Hexec as [s|s tr' s1 l s2 _ IH Hstep].
  - by rewrite app_nil_r.
  - rewrite app_assoc. eapply invariant_step; eauto.
Qed.

Lemma exec_app s tr1 s1 tr2 s2 :
  exec s tr1 s1 -> exec s1 tr2 s2 -> exec s (tr1 ++ tr2) s2.
Proof.
  intros H1 H2. induction H2 as [s1|s1 tr2 s2 l s3 _ IH Hstep].
  - by rewrite app_nil_r.
  - rewrite app_assoc. eapply exec_snoc; eauto.
Qed.

(** A thread that has ended takes no step: the others leave it ended, and
    nothing is dequeued or posted any more. *)
Lemma crashed_stays tr' s s' e :
  exec s tr' s' -> worker s = Crashed e ->
  worker s' = Crashed e /\ dequeued tr' = [] /\ emitted tr' = [].
Proof.
  intros Hexec Hw. induction Hexec as [s|s tr' s1 l s2 _ IH Hstep]; [done|].
  destruct (IH Hw) as (Hw1 & Hd & He).
  rewrite dequeued_snoc, emitted_snoc, Hd, He.
  destruct Hstep; simpl in *; try discriminate Hw1; done.
Qed.

(** X4.  Once the driver has raised during a read the window cannot be
    closed any more: the worker thread has ended without marking its task
    done, so in every state reached afterwards a task is still unfinished,
    [join] has not returned and the window is not destroyed, whatever the
    main thread does, and no further task is ever dequeued. *)
Theorem close_blocks_forever_after_a_crash tr s e tr' s' :
  exec boot tr s ->
  worker s = Crashed e ->
  exec s tr' s' ->
  worker s' = Crashed e /\
  dequeued tr' = [] /\
  (0 < Queue.unfinished_tasks (tts_queue (globals s')))%nat /\
  main s' <> Closed /\
  root_destroyed (globals s') = false.
Proof.
  intros Hboot Hw Hexec.
  destruct (crashed_stays tr' s s' e Hexec Hw) as (Hw' & Hd & _).
  pose proof (invariant_exec_from tr s tr' s'
                (invariant_exec driver tr s Hboot) Hexec)
    as [_ Hun _ _ _ _ _ _ Hdes Hcl].
  rewrite Hw' in Hun. simpl in Hun.
  assert (Hm : main s' <> Closed).
  { intros Hm. apply Hcl in Hm. lia. }
  split; [done|]. split; [done|]. split; [lia|]. split; [done|].
  destruct (root_destroyed (globals s')); [|done].
  by specialize (Hdes eq_refl).
Qed.

(** With a driver that never raises the worker never ends by exception. *)
Lemma never_crashes tr s :
  (forall txt, Engine.raises (driver txt) = false) ->
  exec boot tr s -> forall e, worker s <> Crashed e.
Proof.
  intros Hr Hexec. remember boot as s0 eqn:Hs0.
  induction Hexec as [|s0 tr s1 l s2 Hexec IH Hstep]; [by subst|].
  specialize (IH Hs0). subst s0.
  destruct (invariant_exec driver tr s1 Hexec)
    as [Hin Hun _ _ Heng Hsp _ _ _ _].
  destruct Hstep as [g g' pc' m x rest Hm Hq Hstep
                    |g g' txt cid pc' m evs Hm Hstep Hevs
                    | | | | | | ]; cbn [globals worker main] in *; try done.
  - assert (Hx : is_speak x).
    { rewrite Hin, Hq in Hsp. apply Forall_app in Hsp as [_ Hsp].
      by apply Forall_cons in Hsp as [Hsp _]. }
    destruct x as [t|].
    + rewrite (step_idle_speak driver g t rest Hq Hx) in Hstep.
      destruct (sync t); by injection Hstep as <- _.
    + rewrite (step_idle_sentinel driver g rest Hq) in Hstep
        by (rewrite Hun, Hq; simpl; lia).
      by injection Hstep as <- _.
  - assert (Hu : Engine.utterances (engine_worker g) = []).
    { destruct cid; simpl in Heng; tauto. }
    simpl in Hun. rewrite (step_speaking driver g txt cid Hu) in Hstep by lia.
    rewrite Hr in Hstep. by injection Hstep as <- _.
Qed.

Lemma sentinel_is_last {A} (x : A) l1 l2 c :
  l1 ++ x :: l2 = c ++ [x] -> x ∉ c -> l2 = [].
Proof.
  revert l1; induction c as [|y c IH]; intros l1 Heq Hx.
  - destruct l1 as [|z [|z' l1]]; simpl in Heq; [by injection Heq|..];
      discriminate Heq.
  - apply not_elem_of_cons in Hx as [Hxy Hx].
    destruct l1 as [|z l1]; simpl in Heq; injection Heq as Hz Heq.
    + done.
    + by eapply IH.
Qed.

(** What the worker has left to do: two steps for each queued item, one
    for the task it is speaking. *)
Definition work_left (s : t) : nat :=
  2 * length (Queue.items (tts_queue (globals s))) + in_flight (worker s).

(** The worker has ended through the sentinel: [join] returns. *)
Lemma joining_terminated_closes tr g :
  invariant tr (mk g Terminated Joining) ->
  exists tr' s',
    exec (mk g Terminated Joining) tr' s' /\ main s' = Closed /\
    worker s' = Terminated /\
    root_destroyed (globals s') = true /\ submitted tr' = [].
Proof.
  intros [Hin Hun _ _ _ _ Hsen Hterm _ _]. cbn [globals worker main] in *.
  destruct Hsen as (cmds & Hcmds & Hnone).
  assert (Hq : Queue.items (tts_queue g) = []).
  { assert (Hd : None ∈ dequeued tr) by (by apply Hterm).
    apply list_elem_of_split in Hd as (d1 & d2 & Hd).
    rewrite Hd, <- app_assoc in Hin. simpl in Hin.
    rewrite Hcmds in Hin. symmetry in Hin.
    apply sentinel_is_last in Hin; [|done].
    by apply app_eq_nil in Hin as [_ Hin]. }
  rewrite Hq in Hun. simpl in Hun.
  exists [Tau], (mk (set_root_destroyed true g) Terminated Closed).
  split; [|by destruct g].
  apply (exec_snoc driver (mk g Terminated Joining) []
           (mk g Terminated Joining) Tau); [apply exec_nil|].
  apply step_join; [unfold Queue.join_ready; by rewrite Hun|done].
Qed.

(** The worker is idle while the handler waits: the sentinel is queued. *)
Lemma joining_idle_has_item tr g :
  invariant tr (mk g Idle Joining) ->
  exists x rest, Queue.items (tts_queue g) = x :: rest.
Proof.
  intros [Hin _ _ _ _ _ Hsen Hterm _ _]. cbn [globals worker main] in *.
  destruct Hsen as (cmds & Hcmds & Hnone).
  destruct (Queue.items (tts_queue g)) as [|x rest] eqn:Hq; [|by eauto].
  exfalso. rewrite app_nil_r in Hin.
  assert (Hd : None ∈ dequeued tr).
  { rewrite <- Hin, Hcmds. apply elem_of_app. right.
    by apply list_elem_of_singleton. }
  apply Hterm in Hd. discriminate Hd.
Qed.

Lemma close_completes_within n : forall tr s,
  (forall txt, Engine.raises (driver txt) = false) ->
  invariant tr s ->
  main s = Joining ->
  (forall e, worker s <> Crashed e) ->
  (work_left s <= n)%nat ->
  exists tr' s',
    exec s tr' s' /\ main s' = Closed /\ worker s' = Terminated /\
    root_destroyed (globals s') = true /\ submitted tr' = [].
Proof.
  induction n as [|n IH]; intros tr [g pc m] Hr Hinv Hm Hnc Hwork;
    cbn [main] in Hm; subst m; unfold work_left in Hwork;
    cbn [globals worker] in Hwork, Hnc.
  - (* nothing left to do *)
    destruct pc as [|txt cid| |e].
    + destruct (joining_idle_has_item tr g Hinv) as (x & rest & Hq).
      rewrite Hq in Hwork. simpl in Hwork. lia.
    + simpl in Hwork. lia.
    + by apply (joining_terminated_closes tr).
    + by destruct (Hnc e).
  - destruct pc as [|txt cid| |e].
    + destruct (joining_idle_has_item tr g Hinv) as (x & rest & Hq).
      pose proof Hinv as [Hin Hun _ _ _ Hsp _ _ _ _].
      cbn [globals worker main] in *.
      assert (Hx : is_speak x).
      { rewrite Hin, Hq in Hsp. apply Forall_app in Hsp as [_ Hsp].
        by apply Forall_cons in Hsp as [Hsp _]. }
      assert (Hstep : exists pc' g',
        tts_worker_step driver Idle g = Some (pc', g') /\
        (forall e, pc' <> Crashed e) /\
        (2 * length (Queue.items (tts_queue g')) + in_flight pc' <= n)%nat).
      { rewrite Hq in Hwork, Hun. simpl in Hwork, Hun. destruct x as [t|].
        - rewrite (step_idle_speak driver g t rest Hq Hx).
          destruct (sync t); eexists _, _; (split; [reflexivity|]);
            (split; [done|]); destruct g; simpl; lia.
        - rewrite (step_idle_sentinel driver g rest Hq) by lia.
          eexists _, _. split; [reflexivity|]. split; [done|].
          destruct g; simpl; lia. }
      destruct Hstep as (pc' & g' & Hstep & Hnc' & Hwork').
      assert (Hst : step (mk g Idle Joining) (Dequeue x) (mk g' pc' Joining)).
      { eapply step_dequeue; eauto. }
      destruct (IH (tr ++ [Dequeue x]) (mk g' pc' Joining))
        as (tr' & s' & Hexec & H1 & H2 & H3 & H4); try done.
      { eapply invariant_step; eauto. }
      exists (Dequeue x :: tr'), s'. split; [by eapply exec_cons|]. done.
    + pose proof Hinv as [_ Hun _ _ Heng _ _ _ _ _].
      cbn [globals worker main] in *.
      assert (Hu : Engine.utterances (engine_worker g) = []).
      { destruct cid; simpl in Heng; tauto. }
      simpl in Hun, Hwork.
      set (g' := after_task_done (disconnected cid (spoken driver txt g))).
      assert (Hstep : tts_worker_step driver (Speaking txt cid) g
                      = Some (Idle, g')).
      { rewrite (step_speaking driver g txt cid Hu) by lia. by rewrite Hr. }
      assert (Hg' : Queue.items (tts_queue g') = Queue.items (tts_queue g) /\
                    Queue.items (gui_queue g')
                    = Queue.items (gui_queue g)
                      ++ word_events
                           (Engine.listeners "started-word" (engine_worker g))
                           (Engine.words (driver txt))).
      { subst g'. unfold after_task_done, disconnected, spoken.
        destruct cid as [tok|];
          [destruct (Engine.disconnect _ _)|]; by destruct g. }
      destruct Hg' as [Htq Hgq].
      assert (Hst : step (mk g (Speaking txt cid) Joining)
                         (Emit (word_events
                                  (Engine.listeners "started-word" (engine_worker g))
                                  (Engine.words (driver txt))))
                         (mk g' Idle Joining)).
      { eapply step_speak; eauto. }
      destruct (IH (tr ++ [Emit (word_events
                                  (Engine.listeners "started-word" (engine_worker g))
                                  (Engine.words (driver txt)))])
                   (mk g' Idle Joining))
        as (tr' & s' & Hexec & H1 & H2 & H3 & H4); try done.
      { eapply invariant_step; eauto. }
      { unfold work_left. cbn [globals worker]. rewrite Htq. simpl. lia. }
      eexists (Emit _ :: tr'), s'. split; [by eapply exec_cons|]. done.
    + by apply (joining_terminated_closes tr).
    + by destruct (Hnc e).
Qed.

(** X5.  With a driver that never raises, closing always completes: from
    every state in which the close handler waits in [join], the worker
    alone, by working through the queue, brings the program to the state
    where it has ended through the sentinel, [join] has returned and the
    window is destroyed, without anything more being submitted. *)
Theorem close_completes_when_driver_never_raises tr s :
  (forall txt, Engine.raises (driver txt) = false) ->
  exec boot tr s ->
  main s = Joining ->
  exists tr' s',
    exec s tr' s' /\ main s' = Closed /\ worker s' = Terminated /\
    root_destroyed (globals s') = true /\ submitted tr' = [].
Proof.
  intros Hr Hexec Hm.
  apply (close_completes_within (work_left s) tr s); try done.
  - by apply (invariant_exec driver).
  - by apply (never_crashes tr).
Qed.

(** X10.  While the two threads run, exactly one poll is pending at any
    time: each call of [process_gui_events] uses up the timer that started
    it and sets one new timer of 30 ms, and it always gets that far, since
    the loop is only ever left through [queue.Empty]. *)
Theorem one_poll_is_always_pending tr s :
  exec boot tr s -> after_calls (globals s) = [30%nat].
Proof.
  intros Hexec. remember boot as s0 eqn:Hs0.
  induction Hexec as [|s0 tr s1 l s2 Hexec IH Hstep]; [by subst|].
  specialize (IH Hs0). subst s0.
  destruct (invariant_exec driver tr s1 Hexec) as [_ _ _ Hwf _ _ _ _ _ _].
  destruct Hstep as [g g' pc' m x rest Hm Hq Hstep
                    |g g' txt cid pc' m evs Hm Hstep Hevs
                    |g g' pc ts Hrun Hts
                    |g g' pc txt sy ts Hrun Hts
                    |g g' pc d rest r evs Hac Hrun Hevs
                    |g pc txt
                    |g g' pc Hrun
                    |g g' pc Hjoin Hrun]; cbn [globals worker main] in *.
  - apply Frames.tts_worker_step_keeps_gui in Hstep.
    unfold Frames.gui_side in Hstep. injection Hstep as _ _ -> _. done.
  - apply Frames.tts_worker_step_keeps_gui in Hstep.
    unfold Frames.gui_side in Hstep. injection Hstep as _ _ -> _. done.
  - rewrite Reading.start_reading_run in Hrun. injection Hrun as <-.
    destruct (forallb Py.isspace _); by destruct g.
  - unfold enqueue_speak, modify in Hrun. injection Hrun as <-. by destruct g.
  - rewrite Polling.process_gui_events_run in Hrun;
      [|destruct g; simpl; lia|by destruct g].
    injection Hrun as _ <-. rewrite IH in Hac. injection Hac as _ <-.
    by destruct g.
  - by destruct g.
  - unfold on_closing_put, modify in Hrun. injection Hrun as <-. by destruct g.
  - unfold on_closing_destroy, modify in Hrun. injection Hrun as <-.
    by destruct g.
Qed.

End WithDriver.

(** The worker has crashed on "Hi"; then the user closes the window. *)
Definition crashed_state : t :=
  Eval vm_compute in
    after_worker_step failing_driver (dequeued_hi failing_driver true).

Definition crashed_then_closing : t :=
  Eval vm_compute in after_close crashed_state.

Lemma exec_crashed_state :
  exec failing_driver boot
       ([Submit [Some (mk_task "speak" hi true)];
         Dequeue (Some (mk_task "speak" hi true))] ++ [Emit []])
       crashed_state.
Proof.
  eapply exec_snoc; [apply (exec_dequeued_hi failing_driver true)|].
  apply (step_speak_hi_failing true).
Defined.

Lemma close_blocks_forever_after_a_crash_witness :
  worker crashed_then_closing = Crashed EngineError /\
  main crashed_then_closing <> Closed /\
  root_destroyed (globals crashed_then_closing) = false.
Proof.
  destruct (close_blocks_forever_after_a_crash failing_driver _ crashed_state
              EngineError [Submit [None]] crashed_then_closing
              exec_crashed_state)
    as (H1 & _ & _ & H4 & H5).
  - reflexivity.
  - apply (exec_snoc failing_driver crashed_state [] crashed_state
             (Submit [None]) crashed_then_closing); [apply exec_nil|].
    apply step_close. vm_compute. reflexivity.
  - split; [exact H1|]. split; [exact H4|exact H5].
Defined.

Lemma exec_session_closing :
  exec plain_driver boot
       [Submit [Some (mk_task "speak" hi true)]; Submit [None]]
       session_closing.
Proof.
  apply (exec_cons plain_driver boot _ session_requested).
  { eapply step_enqueue with (s := hi) (sy := true);
      vm_compute; reflexivity. }
  apply (exec_cons plain_driver _ _ session_closing); [|apply exec_nil].
  eapply step_close. vm_compute; reflexivity.
Defined.

Lemma close_completes_when_driver_never_raises_witness :
  exists tr' s',
    exec plain_driver session_closing tr' s' /\
    main s' = Closed /\ worker s' = Terminated /\
    root_destroyed (globals s') = true.
Proof.
  destruct (close_completes_when_driver_never_raises plain_driver _
              session_closing (fun _ => eq_refl) exec_session_closing eq_refl)
    as (tr' & s' & H1 & H2 & H3 & H4 & _).
  exists tr', s'. split; [exact H1|]. split; [exact H2|].
  split; [exact H3|exact H4].
Defined.

(** The first poll after start-up, with nothing in the queue. *)
Definition first_poll : t :=
  Eval vm_compute in
    match process_gui_events 1 (set_after_calls [] (globals boot)) with
    | Some (_, g) => mk g Idle MainLoop
    | None => boot
    end.

Lemma exec_first_poll : exec plain_driver boot [Handle []] first_poll.
Proof.
  apply (exec_cons plain_driver boot _ first_poll); [|apply exec_nil].
  eapply step_poll with (d := 30%nat) (rest := []) (r := inr tt);
    vm_compute; reflexivity.
Defined.

Lemma one_poll_is_always_pending_witness :
  after_calls (globals first_poll) = [30%nat].
Proof.
  apply (one_poll_is_always_pending plain_driver _ _ exec_first_poll).
Defined.

End Shutdown.

(** ** The character palette (lines 92-115) *)

Module Palette.

(** [similar_groups]: each set as the list of its members, in the order
    the [for] loop meets them. *)
Definition similar_groups : list (list string) :=
  [["I"; "l"; "1"]; ["O"; "0"; "o"]; ["B"; "8"]; ["S"; "5"]; ["Z"; "2"];
   ["M"; "rn"]].

Definition group_colors : list string :=
  ["#ffb3c1"; "#b3ffd9"; "#c6c6ff"; "#fff9b3"; "#ffd9b3"; "#d0f0ff"].

Definition default_btn_color : string := "#eeeeee".

(** The inner loop of lines 105-107 for the group of index [idx]:
    [None] stands for the [IndexError] of [group_colors[idx]]. *)
Fixpoint assign_group (colors : list string) (idx : nat) (grp : list string)
    (m : gmap string string) : option (gmap string string) :=
  match grp with
  | [] => Some m
  | ch :: grp' =>
      if Nat.eqb (String.length ch) 1 then
        match colors !! idx with
        | None => None
        | Some c => assign_group colors idx grp' (<[ch := c]> m)
        end
      else assign_group colors idx grp' m
  end.

(** The outer loop of line 104, from the index [idx] on. *)
Fixpoint assign_groups (colors : list string) (idx : nat)
    (groups : list (list string)) (m : gmap string string)
    : option (gmap string string) :=
  match groups with
  | [] => Some m
  | grp :: groups' =>
      match assign_group colors idx grp m with
      | None => None
      | Some m' => assign_groups colors (S idx) groups' m'
      end
  end.

Definition build_char_color_map (groups : list (list string))
    (colors : list string) : option (gmap string string) :=
  assign_groups colors 0 groups ∅.

Definition char_color_map : option (gmap string string) :=
  build_char_color_map similar_groups group_colors.

(** The characters that get a button: A-Z, a-z, 0-9. *)
Definition palette_chars : list string :=
  map (fun a => String a EmptyString)
      (String.list_ascii_of_string
         "ABCDEFGHIJKLMNOPQRSTUVWXYZabcdefghijklmnopqrstuvwxyz0123456789").

(** A button of the panel: its text and background (width 6, height 1 and
    the raised relief are the same for all). *)
Record Button : Type := mk_button { btn_text : string; btn_bg : string }.

Definition make_buttons (m : gmap string string) : list Button :=
  map (fun ch => mk_button ch (default default_btn_color (m !! ch)))
      palette_chars.

(** A member of a group that the loop gives a colour: one character. *)
Definition coloured_member (ch : string) (grp : list string) : Prop :=
  ch ∈ grp /\ String.length ch = 1%nat.

Lemma assign_group_lookup colors idx grp : forall m m' ch,
  assign_group colors idx grp m = Some m' ->
  (coloured_member ch grp ->
   m' !! ch = colors !! idx /\ is_Some (colors !! idx)) /\
  (~ coloured_member ch grp -> m' !! ch = m !! ch).
Proof.
  unfold coloured_member.
  induction grp as [|c grp IH]; intros m m' ch Hrun; simpl in Hrun.
  - injection Hrun as <-. split; [|done].
    intros [H _]. by apply elem_of_nil in H.
  - destruct (Nat.eqb_spec (String.length c) 1) as [Hc|Hc].
    + destruct (colors !! idx) as [col|] eqn:Hcol; [|done].
      destruct (IH _ _ ch Hrun) as [IH1 IH2].
      destruct (decide (ch ∈ grp /\ String.length ch = 1%nat)) as [Hin|Hnin].
      * split; [intros _; by apply IH1|].
        intros Hn. exfalso. apply Hn. split; [|tauto].
        apply elem_of_cons. tauto.
      * rewrite (IH2 Hnin). destruct (decide (ch = c)) as [->|Hne].
        -- rewrite lookup_insert_eq. split; [done|].
           intros Hn. exfalso. apply Hn. split; [|done].
           apply elem_of_cons. tauto.
        -- rewrite lookup_insert_ne by done. split; [|done].
           intros [Hin Hlen]. apply elem_of_cons in Hin as [->|Hin];
             [done|]. exfalso. by apply Hnin.
    + destruct (IH _ _ ch Hrun) as [IH1 IH2]. split.
      * intros [Hin Hlen]. apply elem_of_cons in Hin as [->|Hin]; [done|].
        by apply IH1.
      * intros Hn. apply IH2. intros [Hin Hlen]. apply Hn.
        split; [|done]. apply elem_of_cons. tauto.
Qed.

Lemma assign_groups_lookup colors groups : forall idx m m' ch,
  assign_groups colors idx groups m = Some m' ->
  (forall i grp,
     groups !! i = Some grp -> coloured_member ch grp ->
     (forall j grp', (i < j)%nat -> groups !! j = Some grp' -> ch ∉ grp') ->
     m' !! ch = colors !! (idx + i)%nat /\ is_Some (colors !! (idx + i)%nat)) /\
  ((forall i grp, groups !! i = Some grp -> ~ coloured_member ch grp) ->
   m' !! ch = m !! ch).
Proof.
  induction groups as [|g groups IH]; intros idx m m' ch Hrun; simpl in Hrun.
  - injection Hrun as <-. split; [|done]. intros i grp Hi. done.
  - destruct (assign_group colors idx g m) as [m1|] eqn:Hg; [|done].
    destruct (assign_group_lookup _ _ _ _ _ ch Hg) as [Hg1 Hg2].
    destruct (IH _ _ _ ch Hrun) as [IH1 IH2].
    split.
    + intros [|i] grp Hi Hmem Hlast; simpl in Hi.
      * injection Hi as <-. rewrite Nat.add_0_r.
        rewrite IH2; [by apply Hg1|].
        intros j grp' Hj [Hin _].
        by apply (Hlast (S j) grp'); [lia|done|].
      * replace (idx + S i)%nat with (S idx + i)%nat by lia.
        apply (IH1 i grp Hi Hmem).
        intros j grp' Hlt Hj. apply (Hlast (S j) grp'); [lia|done].
    + intros Hnone. rewrite IH2.
      * apply Hg2. by apply (Hnone 0%nat).
      * intros i grp Hi. by apply (Hnone (S i)).
Qed.







Lemma palette_chars_single ch : ch ∈ palette_chars -> String.length ch = 1%nat.
Proof.
  unfold palette_chars. intros H.
  apply list_elem_of_fmap in H as (a & -> & _). reflexivity.
Qed.

(** X13.  The buttons of the panel, for any groups and colours for which
    the map could be built: there is one button for each of the 62
    characters A-Z, a-z, 0-9, in this order; the button of a character that
    is in no group has the default colour, and the button of a character
    whose last group has index [i] has the colour of index [i]. *)
Theorem button_has_the_colour_of_its_group (groups : list (list string))
    (colors : list string) (m : gmap string string) :
  build_char_color_map groups colors = Some m ->
  map btn_text (make_buttons m) = palette_chars /\
  length (make_buttons m) = 62%nat /\
  forall b, b ∈ make_buttons m ->
    ((forall i grp, groups !! i = Some grp -> btn_text b ∉ grp) ->
     btn_bg b = default_btn_color) /\
    (forall i grp,
       groups !! i = Some grp -> btn_text b ∈ grp ->
       (forall j grp', (i < j)%nat -> groups !! j = Some grp' ->
                       btn_text b ∉ grp') ->
       colors !! i = Some (btn_bg b)).
Proof.
  intros Hrun. unfold build_char_color_map in Hrun.
  split; [|split].
  - unfold make_buttons. rewrite map_map. cbn [btn_text]. apply map_id.
  - unfold make_buttons. by rewrite length_map.
  - intros b Hb. unfold make_buttons in Hb.
    apply list_elem_of_fmap in Hb as (ch & -> & Hch). cbn [btn_text btn_bg].
    pose proof (palette_chars_single ch Hch) as Hlen.
    destruct (assign_groups_lookup _ _ _ _ _ ch Hrun) as [H1 H2].
    split.
    + intros Hnone. rewrite H2; [by rewrite lookup_empty|].
      intros i grp Hi [Hin _]. by apply (Hnone i grp).
    + intros i grp Hi Hin Hlast.
      destruct (H1 i grp Hi (conj Hin Hlen) Hlast) as [Hm [c Hc]].
      simpl in Hm, Hc. rewrite Hm, Hc. done.
Qed.

Lemma button_has_the_colour_of_its_group_witness :
  exists m,
    char_color_map = Some m /\
    length (make_buttons m) = 62%nat /\
    make_buttons m !! 14%nat = Some (mk_button "O" "#b3ffd9") /\
    make_buttons m !! 0%nat = Some (mk_button "A" default_btn_color).
Proof.
  destruct char_color_map as [m|] eqn:Hm; [|vm_compute in Hm; discriminate Hm].
  destruct (button_has_the_colour_of_its_group similar_groups group_colors m Hm)
    as (_ & Hn & _).
  exists m. split; [done|]. split; [exact Hn|].
  vm_compute in Hm. injection Hm as <-. split; vm_compute; reflexivity.
Defined.

End Palette.
